(** * ouster_viz/src/common.h : shader programs and GL helpers

    A shallow embedding of [ouster::viz::impl]: the GLSL stages held in the
    string constants of common.h (point, ring and image stages) and the two
    host helpers [load_shaders] and [load_texture].

    GLSL [float] is read as an exact rational ([Qc]); rounding is not part of
    the model.  A division whose denominator is zero has an unspecified result
    in GLSL 3.30 (section 4.5.1); it is modelled as [None]. *)

From Stdlib Require Import QArith Qcanon Qround Qabs Lqa ZArith.
From stdpp Require Import gmap strings list fin_maps numbers.

Local Open Scope Qc_scope.

(** ** Scalars *)

Definition qc (n : Z) (d : positive) : Qc := Q2Qc (n # d).

Definition Qc_abs (x : Qc) : Qc := if decide (x < 0) then - x else x.

Definition Qc_floor (x : Qc) : Z := Qfloor x.
Definition Qc_ceiling (x : Qc) : Z := Qceiling x.

(** GLSL [clamp(x, lo, hi) = min(max(x, lo), hi)]. *)
Definition Qc_max (x y : Qc) : Qc := if decide (x < y) then y else x.
Definition Qc_min (x y : Qc) : Qc := if decide (y < x) then y else x.
Definition clamp (x lo hi : Qc) : Qc := Qc_min (Qc_max x lo) hi.

(** GLSL [a / b] on floats: unspecified when [b] is zero. *)
Definition fdiv (a b : Qc) : option Qc :=
  if decide (b = 0) then None else Some (a / b).

(** GLSL [round]: nearest integer; the direction taken at a fraction of
    exactly one half is the implementation's choice ([ties_up]). *)
Definition glsl_round (ties_up : bool) (x : Qc) : Qc :=
  if ties_up then Qc_of_Z (Qc_floor (x + qc 1 2))
  else Qc_of_Z (Qc_ceiling (x - qc 1 2)).

(** ** Vectors and matrices *)

Record vec2 := Vec2 { v2x : Qc; v2y : Qc }.
Record vec3 := Vec3 { v3x : Qc; v3y : Qc; v3z : Qc }.
Record vec4 := Vec4 { v4x : Qc; v4y : Qc; v4z : Qc; v4w : Qc }.

(** GLSL [mat4] is column major: [mat4(a0..a3, b0..b3, c0..c3, d0..d3)] has
    columns a, b, c, d. *)
Record mat4 := Mat4 { col0 : vec4; col1 : vec4; col2 : vec4; col3 : vec4 }.

(** Swizzles: [.xyz] and [.rgb] are the same three components, [.a] is [.w],
    [.r] is [.x]. *)
Definition xyz (v : vec4) : vec3 := Vec3 (v4x v) (v4y v) (v4z v).
Definition rgb (v : vec4) : vec3 := xyz v.
Definition chan_r (v : vec4) : Qc := v4x v.
Definition chan_a (v : vec4) : Qc := v4w v.

(** [vec4(v, w)] and [vec3(s)]. *)
Definition vec4_of (v : vec3) (w : Qc) : vec4 := Vec4 (v3x v) (v3y v) (v3z v) w.
Definition vec3_splat (s : Qc) : vec3 := Vec3 s s s.

Definition v3add (a b : vec3) : vec3 :=
  Vec3 (v3x a + v3x b) (v3y a + v3y b) (v3z a + v3z b).
Definition v3scale (a : vec3) (s : Qc) : vec3 :=
  Vec3 (v3x a * s) (v3y a * s) (v3z a * s).
Definition v3div (a : vec3) (s : Qc) : option vec3 :=
  if decide (s = 0) then None else Some (Vec3 (v3x a / s) (v3y a / s) (v3z a / s)).

Definition v4add (a b : vec4) : vec4 :=
  Vec4 (v4x a + v4x b) (v4y a + v4y b) (v4z a + v4z b) (v4w a + v4w b).
Definition v4scale (a : vec4) (s : Qc) : vec4 :=
  Vec4 (v4x a * s) (v4y a * s) (v4z a * s) (v4w a * s).

(** [m * v]: the linear combination of the columns of [m]. *)
Definition mat4_mul_vec (m : mat4) (v : vec4) : vec4 :=
  v4add (v4add (v4scale (col0 m) (v4x v)) (v4scale (col1 m) (v4y v)))
        (v4add (v4scale (col2 m) (v4z v)) (v4scale (col3 m) (v4w v))).

(** [a * b]: column j of the product is [a * (column j of b)]. *)
Definition mat4_mul (a b : mat4) : mat4 :=
  Mat4 (mat4_mul_vec a (col0 b)) (mat4_mul_vec a (col1 b))
       (mat4_mul_vec a (col2 b)) (mat4_mul_vec a (col3 b)).

Definition mat4_identity : mat4 :=
  Mat4 (Vec4 1 0 0 0) (Vec4 0 1 0 0) (Vec4 0 0 1 0) (Vec4 0 0 0 1).

Definition mat4_translate (t : vec3) : mat4 :=
  Mat4 (Vec4 1 0 0 0) (Vec4 0 1 0 0) (Vec4 0 0 1 0) (vec4_of t 1).

(** Bottom row of a matrix, as the fourth component of each column. *)
Definition bottom_row (m : mat4) : vec4 :=
  Vec4 (v4w (col0 m)) (v4w (col1 m)) (v4w (col2 m)) (v4w (col3 m)).

(** A rigid transform in homogeneous form has bottom row (0, 0, 0, 1). *)
Definition rigid (m : mat4) : Prop := bottom_row m = Vec4 0 0 0 1.

(** ** Textures and samplers *)

(** A GLSL [sampler2D] as seen by a stage: the function from a normalized
    coordinate to the sampled texel. *)
Definition sampler2D := vec2 -> vec4.
Definition texture (s : sampler2D) (uv : vec2) : vec4 := s uv.

(** A texture image: [img_width] x [img_height] texels, column then row. *)
Record teximage := TexImage {
  img_width : nat;
  img_height : nat;
  img_texel : nat -> nat -> vec4
}.

(** Texel index selected by a normalized coordinate under GL_NEAREST
    filtering with GL_CLAMP_TO_EDGE wrapping (the policy [load_texture]
    installs): floor(u * size), clamped to [0, size - 1]. *)
Definition nearest_index (u : Qc) (size : nat) : nat :=
  Z.to_nat (Z.max 0 (Z.min (Qc_floor (u * Qc_of_Z (Z.of_nat size)))
                           (Z.of_nat size - 1))).

Definition nearest_clamp_sampler (img : teximage) : sampler2D :=
  fun uv => img_texel img (nearest_index (v2x uv) (img_width img))
                          (nearest_index (v2y uv) (img_height img)).

(** Modelled from the spec: the host-side encoder of the Pose Set texture is
    not in common.h.  The spec (and the comment above the point vertex stage)
    fixes the layout: the texture is W x 4, column c holds pose c, and the
    rgb values of its four texels are the three rotation columns and the
    translation of that pose.  An RGB texel samples with alpha 1. *)
Definition encode_pose_texel (m : mat4) (row : nat) : vec4 :=
  match row with
  | 0%nat => vec4_of (xyz (col0 m)) 1
  | 1%nat => vec4_of (xyz (col1 m)) 1
  | 2%nat => vec4_of (xyz (col2 m)) 1
  | _ => vec4_of (xyz (col3 m)) 1
  end.

Definition pose_set_image (poses : list mat4) : teximage :=
  TexImage (length poses) 4
        (fun c r => encode_pose_texel (nth c poses mat4_identity) r).

(** ** The point stages *)

Section PointVertex.
(** Uniforms. *)
Variable transformation : sampler2D.
Variable model : mat4.
Variable proj_view : mat4.

(** [vec4 local_point = range > 0 ? model * vec4(xyz * range + offset, 1.0)
                                  : vec4(0, 0, 0, 1.0);] *)
Definition local_point (p_xyz offset : vec3) (range : Qc) : vec4 :=
  if decide (0 < range)
  then mat4_mul_vec model (vec4_of (v3add (v3scale p_xyz range) offset) 1)
  else Vec4 0 0 0 1.

(** The four [texture] fetches and the [mat4] constructor. *)
Definition car_pose (trans_index : Qc) : mat4 :=
  let r0 := texture transformation (Vec2 trans_index (qc 125 1000)) in
  let r1 := texture transformation (Vec2 trans_index (qc 375 1000)) in
  let r2 := texture transformation (Vec2 trans_index (qc 625 1000)) in
  let t := texture transformation (Vec2 trans_index (qc 875 1000)) in
  Mat4 (Vec4 (v4x r0) (v4y r0) (v4z r0) 0)
       (Vec4 (v4x r1) (v4y r1) (v4z r1) 0)
       (Vec4 (v4x r2) (v4y r2) (v4z r2) 0)
       (Vec4 (v4x t) (v4y t) (v4z t) 1).

Record point_vertex_out := PointVertexOut {
  pv_gl_Position : vec4;
  pv_key : vec4;
  pv_mask : vec4
}.

(** [gl_Position = proj_view * car_pose * local_point]: GLSL [*] associates
    to the left. *)
Definition point_vertex_main (p_xyz offset : vec3) (range trans_index : Qc)
    (vkey vmask : vec4) : point_vertex_out :=
  PointVertexOut
    (mat4_mul_vec (mat4_mul proj_view (car_pose trans_index))
                  (local_point p_xyz offset range))
    vkey vmask.
End PointVertex.

(** Output colour of a fragment stage: [vec4(rgb_expr, alpha)].  The rgb part
    is [None] when the stage divided by zero to obtain it. *)
Record frag_color := FragColor { out_rgb : option vec3; out_a : Qc }.

Section PointFragment.
Variable mono : bool.
Variable palette : sampler2D.

(** [vec3 c = mono ? texture(palette, vec2(key.r, 1)).rgb : key.rgb;] *)
Definition point_base_color (key : vec4) : vec3 :=
  if mono then rgb (texture palette (Vec2 (chan_r key) 1)) else rgb key.

Definition point_color_a (key mask : vec4) : Qc :=
  chan_a mask + chan_a key * (1 - chan_a mask).

Definition point_color_rgb (key mask : vec4) : vec3 :=
  v3add (v3scale (rgb mask) (chan_a mask))
        (v3scale (v3scale (point_base_color key) (chan_a key)) (1 - chan_a mask)).

(** [color = vec4(color_rgb / color_a, color_a);] *)
Definition point_fragment_main (key mask : vec4) : frag_color :=
  FragColor (v3div (point_color_rgb key mask) (point_color_a key mask))
            (point_color_a key mask).
End PointFragment.

(** ** The ring stages *)

Record ring_vertex_out := RingVertexOut {
  rv_gl_Position : vec4;
  rv_ring_xy : vec2
}.

(** [gl_Position.z = z'] : assignment to one component. *)
Definition set_z (v : vec4) (z' : Qc) : vec4 := Vec4 (v4x v) (v4y v) z' (v4w v).

(** [gl_Position = proj_view * vec4(ring_xyz, 1.0);
     gl_Position.z = gl_Position.w;
     ring_xy = ring_xyz.xy;] *)
Definition ring_vertex_main (proj_view : mat4) (ring_xyz : vec3) : ring_vertex_out :=
  let gl_Position := mat4_mul_vec proj_view (vec4_of ring_xyz 1) in
  let gl_Position := set_z gl_Position (v4w gl_Position) in
  RingVertexOut gl_Position (Vec2 (v3x ring_xyz) (v3y ring_xyz)).

Section RingFragment.
(** GLSL [length] on a [vec2]: the Euclidean norm.  Its value is a square
    root, so the builtin is a parameter of the stage. *)
Variable length2 : vec2 -> Qc.
(** Direction [round] takes at one half. *)
Variable ties_up : bool.
(** Uniforms. *)
Variable ring_range : Qc.
Variable ring_thickness : Qc.

(** [float signedDistance = radius - round(radius/ring_range)*ring_range;] *)
Definition ring_signed_distance (radius : Qc) : option Qc :=
  q ← fdiv radius ring_range;
  Some (radius - glsl_round ties_up q * ring_range).

(** [float rangeFromLine = abs(signedDistance/len);] *)
Definition ring_range_from_line (radius len : Qc) : option Qc :=
  sd ← ring_signed_distance radius;
  d ← fdiv sd len;
  Some (Qc_abs d).

(** The line weight written to the colour: the clamped value, then the
    override [if (radius > 1000.0 || radius < ring_range*0.1) lineWeight = 0]. *)
Definition ring_line_weight (radius len : Qc) : option Qc :=
  let lineWeight :=
    rangeFromLine ← ring_range_from_line radius len;
    Some (clamp (ring_thickness - rangeFromLine) 0 1) in
  if bool_decide (qc 1000 1 < radius) || bool_decide (radius < ring_range * qc 1 10)
  then Some 0
  else lineWeight.

(** [main]: [dFdx_radius] and [dFdy_radius] are the screen-space derivatives
    of [radius] that the rasterizer supplies for this fragment. *)
Definition ring_fragment_main (ring_xy : vec2) (dFdx_radius dFdy_radius : Qc)
    : frag_color :=
  let radius := length2 ring_xy in
  let gradient := Vec2 dFdx_radius dFdy_radius in
  let len := length2 gradient in
  FragColor (lineWeight ← ring_line_weight radius len;
             Some (v3scale (vec3_splat (qc 15 100)) lineWeight))
            1.
End RingFragment.

(** ** The image fragment stage *)

Section ImageFragment.
Variable mono : bool.
Variable use_palette : bool.
Variable image : sampler2D.
Variable mask : sampler2D.
Variable palette : sampler2D.

(** [vec3 key_color = use_palette ? texture(palette, vec2(itex.r, 1)).rgb
                                  : vec3(itex.r);] *)
Definition image_key_color (itex : vec4) : vec3 :=
  if use_palette then rgb (texture palette (Vec2 (chan_r itex) 1))
  else vec3_splat (chan_r itex).

(** [vec3 img_color = mono ? key_color : itex.rgb;] *)
Definition image_img_color (itex : vec4) : vec3 :=
  if mono then image_key_color itex else rgb itex.

Definition image_color_a (m itex : vec4) : Qc :=
  chan_a m + chan_a itex * (1 - chan_a m).

(** [m.rgb * m.a + img_color * (1.0 - m.a)] *)
Definition image_color_rgb (m itex : vec4) : vec3 :=
  v3add (v3scale (rgb m) (chan_a m))
        (v3scale (image_img_color itex) (1 - chan_a m)).

Definition image_fragment_main (uv : vec2) : frag_color :=
  let m := texture mask uv in
  let itex := texture image uv in
  let color_a := image_color_a m itex in
  FragColor (v3div (image_color_rgb m itex) color_a) color_a.
End ImageFragment.

(** The "over" operator as the spec states it, for comparison with the
    stages: overlay [(mask_rgb, mask_a)] over base [(base_rgb, base_a)]. *)
Definition over_spec (mask_rgb : vec3) (mask_a : Qc) (base_rgb : vec3) (base_a : Qc)
    : frag_color :=
  let output_alpha := mask_a + base_a * (1 - mask_a) in
  FragColor
    (v3div (v3add (v3scale mask_rgb mask_a)
                  (v3scale (v3scale base_rgb base_a) (1 - mask_a)))
           output_alpha)
    output_alpha.

(** ** The GL object model used by the host helpers *)

Local Open Scope Z_scope.

Abbreviation GLuint := N (only parsing).
Abbreviation GLint := Z (only parsing).
Abbreviation GLenum := Z (only parsing).

(** Enumerants, with their values from the GL headers. *)
Definition GL_NEAREST : GLenum := 0x2600.
Definition GL_LINEAR : GLenum := 0x2601.
Definition GL_NEAREST_MIPMAP_LINEAR : GLenum := 0x2702.
Definition GL_REPEAT : GLenum := 0x2901.
Definition GL_CLAMP_TO_EDGE : GLenum := 0x812F.
Definition GL_RED : GLenum := 0x1903.
Definition GL_RGB : GLenum := 0x1907.
Definition GL_FLOAT : GLenum := 0x1406.
Definition GL_FALSE : GLint := 0.
Definition GL_TRUE : GLint := 1.

Inductive shader_type := GL_VERTEX_SHADER | GL_FRAGMENT_SHADER.
Inductive shader_pname := GL_COMPILE_STATUS | GL_INFO_LOG_LENGTH.
Inductive program_pname := GL_LINK_STATUS | GL_PROGRAM_INFO_LOG_LENGTH.
Inductive tex_target := GL_TEXTURE_2D.
Inductive tex_pname :=
  | GL_TEXTURE_MAX_LEVEL | GL_TEXTURE_BASE_LEVEL
  | GL_TEXTURE_MAG_FILTER | GL_TEXTURE_MIN_FILTER
  | GL_TEXTURE_WRAP_S | GL_TEXTURE_WRAP_T.

Record shader_obj := ShaderObj {
  sh_type : shader_type;
  sh_source : string;
  sh_compile_status : bool;
  sh_info_log : string;
  sh_delete_flag : bool
}.

Record program_obj := ProgramObj {
  pr_attached : list N;
  pr_link_status : bool;
  pr_info_log : string
}.

Record tex_params := TexParams {
  tp_max_level : GLint;
  tp_base_level : GLint;
  tp_mag_filter : GLint;
  tp_min_filter : GLint;
  tp_wrap_s : GLint;
  tp_wrap_t : GLint
}.

(** One mip level as specified by [glTexImage2D], with the parameter types
    of that call ([GLint internalformat], [GLsizei width], [GLsizei
    height]); the host array is a list of scalars. *)
Record level_image := LevelImage {
  li_internal_format : GLint;
  li_width : Z;
  li_height : Z;
  li_format : GLenum;
  li_type : GLenum;
  li_data : list Qc
}.

Record texture_obj := TextureObj {
  tx_params : tex_params;
  tx_levels : gmap Z level_image
}.

(** The state a texture object has when it is first bound. *)
Definition default_tex_params : tex_params :=
  TexParams 1000 0 GL_LINEAR GL_NEAREST_MIPMAP_LINEAR GL_REPEAT GL_REPEAT.
Definition default_texture : texture_obj := TextureObj default_tex_params ∅.

(** The GL context together with the process's standard output. *)
Record world := World {
  gl_shaders : gmap N shader_obj;
  gl_programs : gmap N program_obj;
  gl_textures : gmap N texture_obj;
  gl_bound_texture_2d : N;
  stdout : list string
}.

(** Host code threads the world through every call. *)
Definition GL (A : Type) : Type := world -> A * world.
Definition gl_ret {A} (a : A) : GL A := fun w => (a, w).
Definition gl_bind {A B} (m : GL A) (k : A -> GL B) : GL B :=
  fun w => let (a, w') := m w in k a w'.

Declare Scope gl_scope.
Delimit Scope gl_scope with gl.
Notation "'let*' x := m 'in' k" := (gl_bind m (fun x => k))
  (at level 10, x name, m at level 100, k at level 200) : gl_scope.

Definition when {A} (b : bool) (m : GL A) : GL unit :=
  if b then gl_bind m (fun _ => gl_ret tt) else gl_ret tt.

Definition set_shaders (f : gmap N shader_obj -> gmap N shader_obj) (w : world) : world :=
  World (f (gl_shaders w)) (gl_programs w) (gl_textures w)
        (gl_bound_texture_2d w) (stdout w).
Definition set_programs (f : gmap N program_obj -> gmap N program_obj) (w : world) : world :=
  World (gl_shaders w) (f (gl_programs w)) (gl_textures w)
        (gl_bound_texture_2d w) (stdout w).
Definition set_textures (f : gmap N texture_obj -> gmap N texture_obj) (w : world) : world :=
  World (gl_shaders w) (gl_programs w) (f (gl_textures w))
        (gl_bound_texture_2d w) (stdout w).

Definition newline : string := String (Ascii.ascii_of_nat 10) EmptyString.

(** [printf("%s\n", s)] *)
Definition printf_line (s : string) : GL unit :=
  fun w => (tt, World (gl_shaders w) (gl_programs w) (gl_textures w)
                      (gl_bound_texture_2d w) (stdout w ++ [String.append s newline])).

(** Shader and program objects share one name space; zero is never a name. *)
Definition gen_name (w : world) : N :=
  fresh (dom (gl_shaders w) ∪ dom (gl_programs w) ∪ {[0%N]}).

(** Length reported for an information log: the characters plus the
    terminating null, or zero when there is no log. *)
Definition info_log_length_of (log : string) : GLint :=
  match log with
  | EmptyString => 0
  | _ => Z.of_nat (String.length log) + 1
  end.

(** The log copied into a buffer of [max_length] chars: at most
    [max_length - 1] characters before the null. *)
Definition copy_info_log (max_length : Z) (log : string) : string :=
  String.substring 0 (Z.to_nat (max_length - 1)) log.

Definition bool_to_GLint (b : bool) : GLint := if b then GL_TRUE else GL_FALSE.

(** Is the shader attached to some program object? *)
Definition attached_somewhere (sid : N) (progs : gmap N program_obj) : bool :=
  bool_decide (map_Exists (fun _ p => sid ∈ pr_attached p) progs).

Section GLDriver.
(** What the driver's compiler and linker answer: the status and the
    information log. *)
Variable compile : shader_type -> string -> bool * string.
Variable link : list shader_obj -> bool * string.

Definition glCreateShader (ty : shader_type) : GL N :=
  fun w => let id := gen_name w in
           (id, set_shaders (insert id (ShaderObj ty EmptyString false EmptyString false)) w).

Definition glShaderSource (id : N) (src : string) : GL unit :=
  fun w => (tt, set_shaders
    (alter (fun s => ShaderObj (sh_type s) src (sh_compile_status s)
                               (sh_info_log s) (sh_delete_flag s)) id) w).

Definition glCompileShader (id : N) : GL unit :=
  fun w => (tt, set_shaders
    (alter (fun s => let (ok, log) := compile (sh_type s) (sh_source s) in
                     ShaderObj (sh_type s) (sh_source s) ok log (sh_delete_flag s)) id) w).

(** [glGetShaderiv(id, pname, &out)]: [out] keeps its value when [id] names
    no shader. *)
Definition glGetShaderiv (id : N) (pname : shader_pname) (out : GLint) : GL GLint :=
  fun w => (match gl_shaders w !! id with
            | Some s => match pname with
                        | GL_COMPILE_STATUS => bool_to_GLint (sh_compile_status s)
                        | GL_INFO_LOG_LENGTH => info_log_length_of (sh_info_log s)
                        end
            | None => out
            end, w).

Definition glGetShaderInfoLog (id : N) (max_length : Z) : GL string :=
  fun w => (match gl_shaders w !! id with
            | Some s => copy_info_log max_length (sh_info_log s)
            | None => EmptyString
            end, w).

Definition glCreateProgram : GL N :=
  fun w => let id := gen_name w in
           (id, set_programs (insert id (ProgramObj [] false EmptyString)) w).

Definition glAttachShader (pid sid : N) : GL unit :=
  fun w => (tt, match gl_shaders w !! sid with
                | Some _ => set_programs
                    (alter (fun p => if bool_decide (sid ∈ pr_attached p) then p
                                     else ProgramObj (pr_attached p ++ [sid])
                                                     (pr_link_status p) (pr_info_log p)) pid) w
                | None => w
                end).

Definition glLinkProgram (pid : N) : GL unit :=
  fun w => (tt, set_programs
    (alter (fun p => let (ok, log) :=
                       link (omap (fun sid => gl_shaders w !! sid) (pr_attached p)) in
                     ProgramObj (pr_attached p) ok log) pid) w).

Definition glGetProgramiv (pid : N) (pname : program_pname) (out : GLint) : GL GLint :=
  fun w => (match gl_programs w !! pid with
            | Some p => match pname with
                        | GL_LINK_STATUS => bool_to_GLint (pr_link_status p)
                        | GL_PROGRAM_INFO_LOG_LENGTH => info_log_length_of (pr_info_log p)
                        end
            | None => out
            end, w).

Definition glGetProgramInfoLog (pid : N) (max_length : Z) : GL string :=
  fun w => (match gl_programs w !! pid with
            | Some p => copy_info_log max_length (pr_info_log p)
            | None => EmptyString
            end, w).

(** A shader flagged for deletion goes away with its last attachment. *)
Definition reap_shader (sid : N) (w : world) : world :=
  match gl_shaders w !! sid with
  | Some s => if sh_delete_flag s && negb (attached_somewhere sid (gl_programs w))
              then set_shaders (delete sid) w else w
  | None => w
  end.

Definition glDetachShader (pid sid : N) : GL unit :=
  fun w => (tt, reap_shader sid (set_programs
    (alter (fun p => ProgramObj (filter (fun x => x ≠ sid) (pr_attached p))
                                (pr_link_status p) (pr_info_log p)) pid) w)).

(** Deleting an attached shader only flags it. *)
Definition glDeleteShader (sid : N) : GL unit :=
  fun w => (tt, reap_shader sid (set_shaders
    (alter (fun s => ShaderObj (sh_type s) (sh_source s) (sh_compile_status s)
                               (sh_info_log s) true) sid) w)).

(** ** load_shaders *)

(** The value an uninitialised [int] happens to hold ([info_log_length] is
    declared without an initialiser). *)
Variable indeterminate : GLint.

Local Open Scope gl_scope.

Definition load_shaders (vertex_shader_code fragment_shader_code : string) : GL N :=
  (* Create the shaders *)
  let* vertex_shader_id := glCreateShader GL_VERTEX_SHADER in
  let* fragment_shader_id := glCreateShader GL_FRAGMENT_SHADER in
  let result := GL_FALSE in
  let info_log_length := indeterminate in
  (* Compile Vertex Shader *)
  let* _ := glShaderSource vertex_shader_id vertex_shader_code in
  let* _ := glCompileShader vertex_shader_id in
  (* Check Vertex Shader *)
  let* result := glGetShaderiv vertex_shader_id GL_COMPILE_STATUS result in
  let* info_log_length := glGetShaderiv vertex_shader_id GL_INFO_LOG_LENGTH info_log_length in
  let* _ := when (0 <? info_log_length)
    (let* vertex_shader_error_message := glGetShaderInfoLog vertex_shader_id info_log_length in
     printf_line vertex_shader_error_message) in
  (* Compile Fragment Shader *)
  let* _ := glShaderSource fragment_shader_id fragment_shader_code in
  let* _ := glCompileShader fragment_shader_id in
  (* Check Fragment Shader *)
  let* result := glGetShaderiv fragment_shader_id GL_COMPILE_STATUS result in
  let* info_log_length := glGetShaderiv fragment_shader_id GL_INFO_LOG_LENGTH info_log_length in
  let* _ := when (0 <? info_log_length)
    (let* fragment_shader_error_message := glGetShaderInfoLog fragment_shader_id info_log_length in
     printf_line fragment_shader_error_message) in
  (* Link the program *)
  let* program_id := glCreateProgram in
  let* _ := glAttachShader program_id vertex_shader_id in
  let* _ := glAttachShader program_id fragment_shader_id in
  let* _ := glLinkProgram program_id in
  (* Check the program *)
  let* result := glGetProgramiv program_id GL_LINK_STATUS result in
  let* info_log_length := glGetProgramiv program_id GL_PROGRAM_INFO_LOG_LENGTH info_log_length in
  let* _ := when (0 <? info_log_length)
    (let* program_error_message := glGetProgramInfoLog program_id info_log_length in
     printf_line program_error_message) in
  let* _ := glDetachShader program_id vertex_shader_id in
  let* _ := glDetachShader program_id fragment_shader_id in
  let* _ := glDeleteShader vertex_shader_id in
  let* _ := glDeleteShader fragment_shader_id in
  gl_ret program_id.
End GLDriver.

(** ** load_texture *)

(** Binding a name for the first time creates the texture object. *)
Definition glBindTexture (target : tex_target) (id : N) : GL unit :=
  fun w => (tt, World (gl_shaders w) (gl_programs w)
                      (match gl_textures w !! id with
                       | Some _ => gl_textures w
                       | None => <[id := default_texture]> (gl_textures w)
                       end)
                      id (stdout w)).

Definition set_tex_param (pname : tex_pname) (param : GLint) (p : tex_params) : tex_params :=
  match pname with
  | GL_TEXTURE_MAX_LEVEL =>
      TexParams param (tp_base_level p) (tp_mag_filter p) (tp_min_filter p) (tp_wrap_s p) (tp_wrap_t p)
  | GL_TEXTURE_BASE_LEVEL =>
      TexParams (tp_max_level p) param (tp_mag_filter p) (tp_min_filter p) (tp_wrap_s p) (tp_wrap_t p)
  | GL_TEXTURE_MAG_FILTER =>
      TexParams (tp_max_level p) (tp_base_level p) param (tp_min_filter p) (tp_wrap_s p) (tp_wrap_t p)
  | GL_TEXTURE_MIN_FILTER =>
      TexParams (tp_max_level p) (tp_base_level p) (tp_mag_filter p) param (tp_wrap_s p) (tp_wrap_t p)
  | GL_TEXTURE_WRAP_S =>
      TexParams (tp_max_level p) (tp_base_level p) (tp_mag_filter p) (tp_min_filter p) param (tp_wrap_t p)
  | GL_TEXTURE_WRAP_T =>
      TexParams (tp_max_level p) (tp_base_level p) (tp_mag_filter p) (tp_min_filter p) (tp_wrap_s p) param
  end.

(** [glTexParameteri] acts on the texture bound to the target. *)
Definition glTexParameteri (target : tex_target) (pname : tex_pname) (param : GLint) : GL unit :=
  fun w => (tt, set_textures
    (alter (fun t => TextureObj (set_tex_param pname param (tx_params t)) (tx_levels t))
           (gl_bound_texture_2d w)) w).

(** A value converted to a signed 32-bit integer ([GLint], [GLsizei]): its
    residue modulo 2^32 in [-2^31, 2^31). *)
Definition int32_wrap (z : Z) : Z := (z + 2 ^ 31) mod 2 ^ 32 - 2 ^ 31.

(** [size_t] to [GLsizei], and [GLenum] to [GLint]: the conversions the
    arguments of [load_texture] undergo at its [glTexImage2D] call. *)
Definition size_t_to_GLsizei (n : N) : Z := int32_wrap (Z.of_N n).
Definition GLenum_to_GLint (e : GLenum) : GLint := int32_wrap e.

Definition glTexImage2D (target : tex_target) (level : GLint) (internal_format : GLint)
    (width height : Z) (border : GLint) (format type : GLenum) (data : list Qc) : GL unit :=
  fun w => (tt, set_textures
    (alter (fun t => TextureObj (tx_params t)
                       (<[level := LevelImage internal_format width height format type data]>
                          (tx_levels t)))
           (gl_bound_texture_2d w)) w).

Local Open Scope gl_scope.

Definition load_texture (texture : list Qc) (width height : N) (texture_id : N)
    (internal_format format type : GLenum) : GL unit :=
  let* _ := glBindTexture GL_TEXTURE_2D texture_id in
  (* we have only 1 level, so we override base/max levels *)
  let* _ := glTexParameteri GL_TEXTURE_2D GL_TEXTURE_MAX_LEVEL 0 in
  let* _ := glTexParameteri GL_TEXTURE_2D GL_TEXTURE_BASE_LEVEL 0 in
  let* _ := glTexParameteri GL_TEXTURE_2D GL_TEXTURE_MAG_FILTER GL_NEAREST in
  let* _ := glTexParameteri GL_TEXTURE_2D GL_TEXTURE_MIN_FILTER GL_NEAREST in
  let* _ := glTexParameteri GL_TEXTURE_2D GL_TEXTURE_WRAP_S GL_CLAMP_TO_EDGE in
  let* _ := glTexParameteri GL_TEXTURE_2D GL_TEXTURE_WRAP_T GL_CLAMP_TO_EDGE in
  glTexImage2D GL_TEXTURE_2D 0 (GLenum_to_GLint internal_format)
    (size_t_to_GLsizei width) (size_t_to_GLsizei height) 0 format type texture.

(** The defaults of the three trailing arguments. *)
Definition load_texture_default (texture : list Qc) (width height : N) (texture_id : N)
    : GL unit :=
  load_texture texture width height texture_id GL_RGB GL_RGB GL_FLOAT.

(** The sampling state [load_texture] leaves on the texture. *)
Definition fixed_tex_params : tex_params :=
  TexParams 0 0 GL_NEAREST GL_NEAREST GL_CLAMP_TO_EDGE GL_CLAMP_TO_EDGE.

(** The three names one run of [load_shaders] obtains from the context. *)
Definition created_names (w : world) : N * N * N :=
  let vid := gen_name w in
  let w1 := set_shaders
              (insert vid (ShaderObj GL_VERTEX_SHADER EmptyString false EmptyString false)) w in
  let fid := gen_name w1 in
  let w2 := set_shaders
              (insert fid (ShaderObj GL_FRAGMENT_SHADER EmptyString false EmptyString false)) w1 in
  (vid, fid, gen_name w2).

(** Every program object lists only shaders that exist. *)
Definition gl_wf (w : world) : Prop :=
  forall pid p sid, gl_programs w !! pid = Some p -> sid ∈ pr_attached p ->
    is_Some (gl_shaders w !! sid).

Definition empty_world : world := World ∅ ∅ ∅ 0%N [].

(** ** Definitions used to state the properties *)

Local Open Scope Qc_scope.

(** The palette is the identity at key value [x]: the colour looked up
    for [x] is the grey level [x]. *)
Definition identity_palette_at (palette : sampler2D) (x : Qc) : Prop :=
  rgb (texture palette (Vec2 x 1)) = vec3_splat x.

(** The key value of level [c] of [W] levels, c / (W - 1), and the palette
    texture of [W] texels that holds at texel [c] the grey of that level. *)
Definition key_level (W c : nat) : Qc := Q2Qc (Z.of_nat c # Pos.of_nat (W - 1)).
Definition grey_palette_image (W : nat) : teximage :=
  TexImage W 1 (fun c _ => vec4_of (vec3_splat (key_level W c)) 1).

Definition grey_ramp : sampler2D :=
  fun uv => Vec4 (v2x uv) (v2x uv) (v2x uv) 1.

Definition const_sampler (c : vec4) : sampler2D := fun _ => c.

(** What [load_shaders] prints for a sequence of information logs: each
    non-empty log, followed by a newline. *)
Definition printed (logs : list string) : list string :=
  (fun l => String.append l newline) <$> filter (fun l => l ≠ EmptyString) logs.

(** The shader object a successful [glCreateShader], [glShaderSource],
    [glCompileShader] sequence leaves behind. *)
Definition compiled_shader (compile : shader_type -> string -> bool * string)
    (ty : shader_type) (src : string) : shader_obj :=
  ShaderObj ty src (compile ty src).1 (compile ty src).2 false.

(** The world after one information log has been reported. *)
Definition emit (log : string) (w : world) : world :=
  World (gl_shaders w) (gl_programs w) (gl_textures w) (gl_bound_texture_2d w)
        (stdout w ++ printed [log]).

(** A driver for the examples: a stage with an empty source does not
    compile, and a program links when all its stages compiled. *)
Definition strict_compile (ty : shader_type) (src : string) : bool * string :=
  if decide (src = EmptyString) then (false, "error: empty source"%string)
  else (true, EmptyString).
Definition strict_link (stages : list shader_obj) : bool * string :=
  if forallb sh_compile_status stages then (true, EmptyString)
  else (false, "error: link failed"%string).

(** ** Further definitions used to state properties *)

(** A value of the unit interval, as an alpha is meant to be. *)
Definition in_unit (x : Qc) : Prop := 0 <= x /\ x <= 1.

(** Every channel of [v] lies between [lo] and [hi]. *)
Definition v3_between (lo hi : Qc) (v : vec3) : Prop :=
  (lo <= v3x v /\ v3x v <= hi) /\ (lo <= v3y v /\ v3y v <= hi) /\
  (lo <= v3z v /\ v3z v <= hi).

(** The condition of the ring stage's override
    [if (radius > 1000.0 || radius < ring_range*0.1)]. *)
Definition ring_suppressed (ring_range radius : Qc) : Prop :=
  qc 1000 1 < radius \/ radius < ring_range * qc 1 10.

(** A stand-in for [length] in examples: it agrees with the Euclidean norm
    on the vectors along one axis, which is all the examples use. *)
Definition axis_length (v : vec2) : Qc := Qc_abs (v2x v) + Qc_abs (v2y v).

(** The mip levels a texture name holds: none when the name has no object. *)
Definition levels_of (w : world) (id : N) : gmap Z level_image :=
  match gl_textures w !! id with
  | Some t => tx_levels t
  | None => ∅
  end.

(** Two poses for the examples: the identity and a translation by (1, 0, 0). *)
Definition two_poses : list mat4 := [mat4_identity; mat4_translate (Vec3 1 0 0)].

(** ** Arithmetic facts *)

Ltac vec_eq := repeat (f_equal; try ring).

(** Equality of two closed rationals, by evaluation. *)
Ltac qc_eq := apply Qc_is_canon; vm_compute; reflexivity.

(** Move an order statement on [Qc] to the underlying [Q]. *)
Ltac qc2q :=
  unfold qc, Qcle, Qclt, Qcdiv, Qcminus, Qcplus, Qcmult, Qcopp, Qcinv, Q2Qc in *;
  cbn [this] in *; rewrite ?Qred_correct in *.

Lemma Qc_abs_this (x : Qc) : (this (Qc_abs x) == Qabs (this x))%Q.
Proof.
  unfold Qc_abs. case_decide as H.
  - unfold Qclt in H. cbn in H. unfold Qcopp, Q2Qc; cbn [this]. rewrite Qred_correct.
    symmetry. apply Qabs_neg. apply Qlt_le_weak, H.
  - apply Qcnot_lt_le in H. unfold Qcle in H. cbn in H.
    symmetry. apply Qabs_pos, H.
Qed.

Lemma Qc_abs_div (a b : Qc) : Qc_abs (a / b) = Qc_abs a / Qc_abs b.
Proof.
  apply Qc_is_canon. rewrite Qc_abs_this.
  unfold Qcdiv, Qcmult, Qcinv, Q2Qc; cbn [this]. rewrite !Qred_correct.
  rewrite !Qc_abs_this. rewrite Qabs_Qmult, Qabs_Qinv. reflexivity.
Qed.

Lemma Qc_abs_nonneg_id (x : Qc) : 0 <= x -> Qc_abs x = x.
Proof.
  intros H. unfold Qc_abs. case_decide as H1; [| reflexivity].
  exfalso. eapply Qclt_not_le; eauto.
Qed.

Lemma Qc_abs_nonneg (x : Qc) : 0 <= Qc_abs x.
Proof.
  unfold Qcle. rewrite Qc_abs_this. apply Qabs_nonneg.
Qed.

Lemma Qc_max_nonpos (x : Qc) : x <= 0 -> Qc_max x 0 = 0.
Proof.
  intros H. unfold Qc_max. case_decide as H1; [reflexivity |].
  apply Qcnot_lt_le in H1. now apply Qcle_antisym.
Qed.

Lemma clamp_nonpos (x : Qc) : x <= 0 -> clamp x 0 1 = 0.
Proof.
  intros H. unfold clamp. rewrite Qc_max_nonpos by assumption. qc_eq.
Qed.

Lemma fdiv_nonzero (a b : Qc) : b <> 0 -> fdiv a b = Some (a / b).
Proof. intros Hb. unfold fdiv. case_decide; [contradiction | reflexivity]. Qed.

Lemma fdiv_zero (a : Qc) : fdiv a 0 = None.
Proof. unfold fdiv. case_decide; [reflexivity | contradiction]. Qed.

Lemma v3div_nonzero (a : vec3) (s : Qc) :
  s <> 0 -> v3div a s = Some (Vec3 (v3x a / s) (v3y a / s) (v3z a / s)).
Proof. intros Hs. unfold v3div. case_decide; [contradiction | reflexivity]. Qed.

Lemma v3div_zero (a : vec3) : v3div a 0 = None.
Proof. unfold v3div. case_decide; [reflexivity | contradiction]. Qed.

Lemma mat4_mul_vec_assoc (a b : mat4) (v : vec4) :
  mat4_mul_vec (mat4_mul a b) v = mat4_mul_vec a (mat4_mul_vec b v).
Proof.
  destruct a as [[] [] [] []], b as [[] [] [] []], v.
  unfold mat4_mul, mat4_mul_vec, v4add, v4scale; simpl. vec_eq.
Qed.

Lemma mat4_mul_assoc (a b c : mat4) :
  mat4_mul (mat4_mul a b) c = mat4_mul a (mat4_mul b c).
Proof.
  unfold mat4_mul at 1 3 4; simpl. now rewrite !mat4_mul_vec_assoc.
Qed.

(** The four row centres select the rows 0..3 of a texture of height 4. *)
Lemma row_centers :
  nearest_index (qc 125 1000) 4 = 0%nat /\ nearest_index (qc 375 1000) 4 = 1%nat /\
  nearest_index (qc 625 1000) 4 = 2%nat /\ nearest_index (qc 875 1000) 4 = 3%nat.
Proof. vm_compute. auto. Qed.

(** ** The pose texture codec *)

Lemma Qc_floor_ratio (n m : Z) (d : positive) :
  Qc_floor (Q2Qc (n # d) * Qc_of_Z m) = (n * m / Z.pos d)%Z.
Proof.
  unfold Qc_floor, Qcmult, Q2Qc, Qc_of_Z. cbn [this].
  rewrite !Qred_correct.
  unfold Qmult, inject_Z, Qfloor. cbn [Qnum Qden].
  now rewrite Pos.mul_1_r.
Qed.

(** The source's convention for [trans_index]: pose [c] of [W >= 2] poses is
    addressed by c / (W - 1), 0 being the first pose and 1 the last. *)
Lemma nearest_index_normalized (W c : nat) :
  (2 <= W)%nat -> (c < W)%nat ->
  nearest_index (Q2Qc (Z.of_nat c # Pos.of_nat (W - 1))) W = c.
Proof.
  intros HW Hc. unfold nearest_index. rewrite Qc_floor_ratio.
  assert (Hp : Z.pos (Pos.of_nat (W - 1)) = (Z.of_nat W - 1)%Z).
  { rewrite <- (Nat2Z.inj_sub _ 1) by lia.
    rewrite <- positive_nat_Z, Nat2Pos.id by lia. reflexivity. }
  rewrite Hp.
  replace (Z.of_nat c * Z.of_nat W)%Z
    with (Z.of_nat c + Z.of_nat c * (Z.of_nat W - 1))%Z by ring.
  rewrite Z.div_add by lia.
  destruct (decide (c = W - 1)%nat) as [-> | Hne].
  - rewrite Nat2Z.inj_sub by lia. change (Z.of_nat 1) with 1%Z.
    rewrite Z.div_same by lia. lia.
  - rewrite Z.div_small by lia. lia.
Qed.

(** A texture one texel wide returns its only column for every coordinate. *)
Lemma nearest_index_single (u : Qc) : nearest_index u 1 = 0%nat.
Proof. unfold nearest_index. cbn [Z.of_nat]. lia. Qed.

(** The decode of a column that holds an encoded rigid transform. *)
Lemma car_pose_of_column (poses : list mat4) (c : nat) (M : mat4)
    (trans_index : Qc) :
  poses !! c = Some M ->
  rigid M ->
  nearest_index trans_index (length poses) = c ->
  car_pose (nearest_clamp_sampler (pose_set_image poses)) trans_index = M.
Proof.
  intros Hc HM Hidx.
  destruct row_centers as (R0 & R1 & R2 & R3).
  unfold car_pose, texture, nearest_clamp_sampler, pose_set_image.
  cbn [img_width img_height img_texel v2x v2y].
  rewrite Hidx, R0, R1, R2, R3.
  rewrite (nth_lookup_Some _ _ _ _ Hc).
  cbn [encode_pose_texel vec4_of xyz v3x v3y v3z v4x v4y v4z].
  destruct M as [[] [] [] []]. unfold rigid, bottom_row in HM; simpl in *.
  injection HM as -> -> -> ->. reflexivity.
Qed.

(** C1. A rigid transform stored as column [c] of the Pose Set texture is
    reconstructed exactly by the vertex stage's decode, whenever the
    [trans_index] coordinate selects that column: the four fetches at the row
    centres 0.125, 0.375, 0.625, 0.875 return the three rotation columns and
    the translation, and the [mat4] constructor adds the bottom row
    (0, 0, 0, 1).  No normalisation or inversion takes place. *)
Theorem pose_texture_roundtrip (poses : list mat4) (c : nat) (M : mat4)
    (trans_index : Qc) :
  poses !! c = Some M ->
  rigid M ->
  nearest_index trans_index (length poses) = c ->
  car_pose (nearest_clamp_sampler (pose_set_image poses)) trans_index = M.
Proof. apply car_pose_of_column. Qed.

(** With the source's normalized index every pose of a set of two or more
    is recovered. *)
Lemma pose_texture_decode_normalized (poses : list mat4) (c : nat) (M : mat4) :
  (2 <= length poses)%nat ->
  poses !! c = Some M ->
  rigid M ->
  car_pose (nearest_clamp_sampler (pose_set_image poses))
           (Q2Qc (Z.of_nat c # Pos.of_nat (length poses - 1))) = M.
Proof.
  intros HW Hc HM. apply (car_pose_of_column poses c); try assumption.
  apply nearest_index_normalized; [assumption |].
  now apply lookup_lt_Some in Hc.
Qed.

(** A set of one pose is recovered for every index. *)
Lemma pose_texture_decode_single (M : mat4) (trans_index : Qc) :
  rigid M ->
  car_pose (nearest_clamp_sampler (pose_set_image [M])) trans_index = M.
Proof.
  intros HM. apply (car_pose_of_column [M] 0); [reflexivity | assumption |].
  apply nearest_index_single.
Qed.

Lemma pose_texture_roundtrip_witness :
  car_pose (nearest_clamp_sampler
              (pose_set_image [mat4_identity; mat4_translate (Vec3 1 0 0)])) 1
  = mat4_translate (Vec3 1 0 0).
Proof.
  apply (pose_texture_roundtrip
           [mat4_identity; mat4_translate (Vec3 1 0 0)] 1
           (mat4_translate (Vec3 1 0 0)) 1).
  - reflexivity.
  - reflexivity.
  - vm_compute. reflexivity.
Defined.

(** ** The point vertex stage *)

Lemma local_point_valid (model : mat4) (p_xyz offset : vec3) (range : Qc) :
  0 < range ->
  local_point model p_xyz offset range
  = mat4_mul_vec model (vec4_of (v3add (v3scale p_xyz range) offset) 1).
Proof. intros H. unfold local_point. case_decide; [reflexivity | contradiction]. Qed.

Lemma local_point_invalid (model : mat4) (p_xyz offset : vec3) (range : Qc) :
  range <= 0 -> local_point model p_xyz offset range = Vec4 0 0 0 1.
Proof.
  intros H. unfold local_point. case_decide; [| reflexivity].
  exfalso. eapply Qclt_not_le; eauto.
Qed.

(** C2, as the spec states it for an invalid return: with the model a
    translation by (1, 0, 0) and range 0, the stage's local point is
    (0, 0, 0, 1), while the model applied to the origin is (1, 0, 0, 1). *)
Lemma local_point_invalid_ignores_model :
  (0 <= 0)%Qc /\
  local_point (mat4_translate (Vec3 1 0 0)) (Vec3 0 0 0) (Vec3 0 0 0) 0
  <> mat4_mul_vec (mat4_translate (Vec3 1 0 0)) (Vec4 0 0 0 1).
Proof.
  split; [apply Qcle_refl |].
  rewrite local_point_invalid by apply Qcle_refl.
  intros H. apply (f_equal v4x) in H. vm_compute in H. discriminate H.
Qed.

(** C2, amended.  For a valid return ([range > 0]) the clip position is
    proj_view * pose * model * (xyz * range + offset, 1), in whichever way
    the product is bracketed.  For [range <= 0] the local point is the
    constant (0, 0, 0, 1), whatever xyz, offset and the model are: the model
    is not applied, and the clip position is proj_view * pose * (0, 0, 0, 1).
    The vertex is emitted in both cases, and key and mask pass through. *)
Theorem point_vertex_position (transformation : sampler2D) (model proj_view : mat4)
    (p_xyz offset : vec3) (range trans_index : Qc) (vkey vmask : vec4) :
  let out := point_vertex_main transformation model proj_view
               p_xyz offset range trans_index vkey vmask in
  let pose := car_pose transformation trans_index in
  let p := vec4_of (v3add (v3scale p_xyz range) offset) 1 in
  (0 < range ->
     pv_gl_Position out
       = mat4_mul_vec (mat4_mul (mat4_mul proj_view pose) model) p /\
     pv_gl_Position out
       = mat4_mul_vec proj_view (mat4_mul_vec pose (mat4_mul_vec model p))) /\
  (range <= 0 ->
     local_point model p_xyz offset range = Vec4 0 0 0 1 /\
     pv_gl_Position out
       = mat4_mul_vec proj_view (mat4_mul_vec pose (Vec4 0 0 0 1))) /\
  pv_key out = vkey /\ pv_mask out = vmask.
Proof.
  cbv zeta. unfold point_vertex_main. cbn [pv_gl_Position pv_key pv_mask].
  repeat split.
  - rewrite local_point_valid by assumption.
    now rewrite !mat4_mul_vec_assoc.
  - rewrite local_point_valid by assumption.
    now rewrite !mat4_mul_vec_assoc.
  - now apply local_point_invalid.
  - rewrite local_point_invalid by assumption.
    now rewrite mat4_mul_vec_assoc.
Qed.

Lemma point_vertex_position_witness :
  let poses := nearest_clamp_sampler
                 (pose_set_image [mat4_identity; mat4_translate (Vec3 1 0 0)]) in
  let model := mat4_translate (Vec3 0 2 0) in
  pv_gl_Position
    (point_vertex_main poses model mat4_identity (Vec3 0 0 1) (Vec3 0 0 0) (qc 3 1) 1
       (Vec4 1 0 0 1) (Vec4 0 0 0 0))
  = mat4_mul_vec mat4_identity
      (mat4_mul_vec (car_pose poses 1)
         (mat4_mul_vec model
            (vec4_of (v3add (v3scale (Vec3 0 0 1) (qc 3 1)) (Vec3 0 0 0)) 1)))
  /\
  local_point model (Vec3 0 0 1) (Vec3 0 0 0) (- (1)) = Vec4 0 0 0 1.
Proof.
  intros poses model. split.
  - destruct (point_vertex_position poses model mat4_identity (Vec3 0 0 1)
                (Vec3 0 0 0) (qc 3 1) 1 (Vec4 1 0 0 1) (Vec4 0 0 0 0)) as (Hpos & _).
    apply Hpos. reflexivity.
  - destruct (point_vertex_position poses model mat4_identity (Vec3 0 0 1)
                (Vec3 0 0 0) (- (1)) 1 (Vec4 1 0 0 1) (Vec4 0 0 0 0))
      as (_ & Hneg & _).
    apply Hneg. vm_compute. discriminate.
Defined.

(** Two poses (identity, translate by (1, 0, 0)); a point with
    trans_index 1, xyz and offset zero, range 1 and the identity model lands
    at (1, 0, 0). *)
Example point_vertex_second_pose :
  let poses := nearest_clamp_sampler
                 (pose_set_image [mat4_identity; mat4_translate (Vec3 1 0 0)]) in
  mat4_mul_vec (car_pose poses 1)
               (local_point mat4_identity (Vec3 0 0 0) (Vec3 0 0 0) 1)
  = Vec4 1 0 0 1.
Proof.
  cbv zeta. rewrite local_point_valid by reflexivity.
  unfold mat4_mul_vec, v4add, v4scale. cbn. f_equal; qc_eq.
Qed.

(** ** The ring vertex stage *)

(** C10. After the ring vertex stage the clip-space z equals the clip-space
    w; x, y and w are those of proj_view * (ring_xyz, 1). *)
Theorem ring_vertex_far_plane (proj_view : mat4) (ring_xyz : vec3) :
  let out := rv_gl_Position (ring_vertex_main proj_view ring_xyz) in
  let p := mat4_mul_vec proj_view (vec4_of ring_xyz 1) in
  v4z out = v4w out /\
  v4x out = v4x p /\ v4y out = v4y p /\ v4w out = v4w p.
Proof. cbv zeta. unfold ring_vertex_main, set_z. cbn. auto. Qed.

(** The depth after the perspective divide is then 1, the far plane. *)
Lemma ring_vertex_ndc_depth (proj_view : mat4) (ring_xyz : vec3) :
  let out := rv_gl_Position (ring_vertex_main proj_view ring_xyz) in
  v4w out <> 0 -> fdiv (v4z out) (v4w out) = Some 1.
Proof.
  cbv zeta. unfold ring_vertex_main, set_z. cbn [rv_gl_Position v4z v4w].
  intros Hw. unfold fdiv. case_decide; [contradiction |].
  f_equal. now field.
Qed.

(** ** The point fragment stage *)

(** The stage is the spec's "over" operator with base colour [c] and base
    alpha [key.a], for every input (both sides divide by the same alpha). *)
Lemma point_fragment_is_over (mono : bool) (palette : sampler2D) (key mask : vec4) :
  point_fragment_main mono palette key mask
  = over_spec (rgb mask) (chan_a mask) (point_base_color mono palette key) (chan_a key).
Proof. reflexivity. Qed.

(** C3, as the spec states it at mask.a = 0: with key.a = 0 as well the
    output is not (c, key.a); the rgb part is the quotient 0 / 0. *)
Lemma point_fragment_transparent_base_not_exact :
  chan_a (Vec4 0 0 0 0) = 0 /\
  point_fragment_main false grey_ramp (Vec4 1 1 1 0) (Vec4 0 0 0 0)
  <> FragColor (Some (point_base_color false grey_ramp (Vec4 1 1 1 0)))
               (chan_a (Vec4 1 1 1 0)).
Proof. split; [reflexivity |]. vm_compute. discriminate. Qed.

(** C3, amended.  The output alpha is mask.a + key.a * (1 - mask.a) and the
    output rgb is (mask.rgb * mask.a + c * key.a * (1 - mask.a)) divided by
    that alpha.  For mask.a = 0 and key.a <> 0 the output is (c, key.a); for
    mask.a = 1 it is (mask.rgb, 1). *)
Theorem point_fragment_over (mono : bool) (palette : sampler2D) (key mask : vec4) :
  let c := point_base_color mono palette key in
  let out := point_fragment_main mono palette key mask in
  out_a out = chan_a mask + chan_a key * (1 - chan_a mask) /\
  out_rgb out
    = v3div (v3add (v3scale (rgb mask) (chan_a mask))
                   (v3scale (v3scale c (chan_a key)) (1 - chan_a mask)))
            (out_a out) /\
  (chan_a mask = 0 -> chan_a key <> 0 -> out = FragColor (Some c) (chan_a key)) /\
  (chan_a mask = 1 -> out = FragColor (Some (rgb mask)) 1).
Proof.
  cbv zeta. repeat split.
  - intros Hm Hk.
    unfold point_fragment_main, point_color_a, point_color_rgb. rewrite Hm.
    assert (Ha : 0 + chan_a key * (1 - 0) = chan_a key) by ring.
    rewrite Ha, v3div_nonzero by assumption.
    destruct (point_base_color mono palette key) as [cx cy cz].
    destruct mask as [mx my mz ma]. cbn.
    f_equal. f_equal. f_equal; field; first [assumption | discriminate].
  - intros Hm.
    unfold point_fragment_main, point_color_a, point_color_rgb. rewrite Hm.
    assert (Ha : 1 + chan_a key * (1 - 1) = 1) by ring.
    rewrite Ha, v3div_nonzero by discriminate.
    destruct (point_base_color mono palette key) as [cx cy cz].
    destruct mask as [mx my mz ma]. cbn.
    unfold rgb, xyz; cbn.
    f_equal. f_equal. f_equal; field; first [assumption | discriminate].
Qed.

Lemma point_fragment_over_witness :
  point_fragment_main true grey_ramp (Vec4 (qc 1 4) 0 0 (qc 1 2)) (Vec4 1 0 0 0)
  = FragColor (Some (point_base_color true grey_ramp (Vec4 (qc 1 4) 0 0 (qc 1 2))))
              (chan_a (Vec4 (qc 1 4) 0 0 (qc 1 2)))
  /\
  point_fragment_main true grey_ramp (Vec4 (qc 1 4) 0 0 (qc 1 2)) (Vec4 1 0 0 1)
  = FragColor (Some (rgb (Vec4 1 0 0 1))) 1.
Proof.
  split.
  - destruct (point_fragment_over true grey_ramp (Vec4 (qc 1 4) 0 0 (qc 1 2))
                (Vec4 1 0 0 0)) as (_ & _ & Hclear & _).
    apply Hclear; [reflexivity | vm_compute; discriminate].
  - destruct (point_fragment_over true grey_ramp (Vec4 (qc 1 4) 0 0 (qc 1 2))
                (Vec4 1 0 0 1)) as (_ & _ & _ & Hopaque).
    apply Hopaque. reflexivity.
Defined.

(** C5, as the spec states it: with mask alpha and base alpha both zero the
    stage still performs the division, its denominator is zero and nothing
    resolves it. *)
Lemma point_fragment_zero_alpha_unguarded :
  chan_a (Vec4 0 0 0 0) = 0 /\ chan_a (Vec4 1 1 1 0) = 0 /\
  ~ is_Some (out_rgb (point_fragment_main false grey_ramp (Vec4 1 1 1 0) (Vec4 0 0 0 0))).
Proof.
  split; [reflexivity | split; [reflexivity |]].
  intros [v Hv]. vm_compute in Hv. discriminate Hv.
Qed.

(** C5, amended.  With mask alpha and base alpha both zero, the output alpha
    of the point stage and of the image stage is 0, and the divisor of the
    rgb part is that 0 in both stages: neither stage guards the division,
    and the rgb part of the output is unspecified. *)
Theorem compositor_zero_alpha (mono use_palette : bool)
    (palette image mask : sampler2D) (key vmask : vec4) (uv : vec2) :
  chan_a vmask = 0 -> chan_a key = 0 ->
  chan_a (texture mask uv) = 0 -> chan_a (texture image uv) = 0 ->
  point_fragment_main mono palette key vmask = FragColor None 0 /\
  image_fragment_main mono use_palette image mask palette uv = FragColor None 0.
Proof.
  intros Hm Hk Hm' Hi. split.
  - unfold point_fragment_main, point_color_a. rewrite Hm, Hk.
    assert (Ha : 0 + 0 * (1 - 0) = 0) by ring.
    now rewrite Ha, v3div_zero.
  - unfold image_fragment_main, image_color_a. cbv zeta. rewrite Hm', Hi.
    assert (Ha : 0 + 0 * (1 - 0) = 0) by ring.
    now rewrite Ha, v3div_zero.
Qed.

Lemma compositor_zero_alpha_witness :
  point_fragment_main true grey_ramp (Vec4 1 1 1 0) (Vec4 1 0 0 0) = FragColor None 0 /\
  image_fragment_main true false (const_sampler (Vec4 1 1 1 0))
    (const_sampler (Vec4 1 0 0 0)) grey_ramp (Vec2 0 0) = FragColor None 0.
Proof.
  apply (compositor_zero_alpha true false grey_ramp (const_sampler (Vec4 1 1 1 0))
           (const_sampler (Vec4 1 0 0 0)) (Vec4 1 1 1 0) (Vec4 1 0 0 0) (Vec2 0 0));
    reflexivity.
Defined.

(** A grey palette texture of two or more texels, sampled as [load_texture]
    sets it up, is the identity at every one of its key levels. *)
Lemma grey_palette_identity (W c : nat) :
  (2 <= W)%nat -> (c < W)%nat ->
  identity_palette_at (nearest_clamp_sampler (grey_palette_image W)) (key_level W c).
Proof.
  intros HW Hc. unfold identity_palette_at, texture, nearest_clamp_sampler.
  cbn [grey_palette_image img_width img_height img_texel v2x v2y].
  unfold key_level. rewrite nearest_index_normalized by assumption.
  reflexivity.
Qed.

(** C9, as the spec states it: the two-texel grey palette texture is the
    identity at both of its key values, 0 and 1, yet the key (1, 0, 0)
    resolves to white on the palette path and to red on the direct path. *)
Lemma identity_palette_paths_differ :
  let palette := nearest_clamp_sampler (grey_palette_image 2) in
  identity_palette_at palette 0 /\ identity_palette_at palette 1 /\
  identity_palette_at palette (chan_r (Vec4 1 0 0 1)) /\
  point_base_color true palette (Vec4 1 0 0 1)
  <> point_base_color false palette (Vec4 1 0 0 1).
Proof.
  cbv zeta.
  assert (H0 : identity_palette_at (nearest_clamp_sampler (grey_palette_image 2)) 0).
  { replace (Q2Qc 0) with (key_level 2 0) by qc_eq. apply grey_palette_identity; lia. }
  assert (H1 : identity_palette_at (nearest_clamp_sampler (grey_palette_image 2)) 1).
  { replace (Q2Qc 1) with (key_level 2 1) by qc_eq. apply grey_palette_identity; lia. }
  repeat split; try assumption.
  unfold point_base_color. unfold identity_palette_at in H1.
  change (chan_r (Vec4 1 0 0 1)) with (Q2Qc 1). rewrite H1.
  intros H. apply (f_equal v3y) in H. vm_compute in H. discriminate H.
Qed.

(** C9, amended.  Where the palette is the identity at the key value looked
    up (the colour at key.r is the grey key.r), the palette path resolves
    the base colour (key.r, key.r, key.r); it agrees with the direct path
    (key.rgb) exactly for the keys whose green and blue equal their red. *)
Theorem identity_palette_agreement (palette : sampler2D) (key : vec4) :
  identity_palette_at palette (chan_r key) ->
  point_base_color true palette key = vec3_splat (chan_r key) /\
  (point_base_color true palette key = point_base_color false palette key
   <-> v4y key = v4x key /\ v4z key = v4x key).
Proof.
  intros Hid. unfold identity_palette_at in Hid.
  unfold point_base_color. rewrite Hid. split; [reflexivity |].
  destruct key as [r g b a]. unfold vec3_splat, rgb, xyz, chan_r. cbn. split.
  - intros H. injection H as -> ->. auto.
  - intros [-> ->]. reflexivity.
Qed.

Lemma identity_palette_agreement_witness :
  point_base_color true (nearest_clamp_sampler (grey_palette_image 3))
    (Vec4 (key_level 3 1) (key_level 3 1) (key_level 3 1) 1)
  = point_base_color false (nearest_clamp_sampler (grey_palette_image 3))
      (Vec4 (key_level 3 1) (key_level 3 1) (key_level 3 1) 1).
Proof.
  apply (identity_palette_agreement (nearest_clamp_sampler (grey_palette_image 3))
           (Vec4 (key_level 3 1) (key_level 3 1) (key_level 3 1) 1)).
  - apply (grey_palette_identity 3 1); lia.
  - split; reflexivity.
Defined.

(** ** The image fragment stage *)

(** With an opaque image texel (itex.a = 1) the image stage is the "over"
    operator with base (img_color, 1). *)
Lemma image_fragment_over_opaque (mono use_palette : bool)
    (image mask palette : sampler2D) (uv : vec2) :
  chan_a (texture image uv) = 1 ->
  image_fragment_main mono use_palette image mask palette uv
  = over_spec (rgb (texture mask uv)) (chan_a (texture mask uv))
      (image_img_color mono use_palette palette (texture image uv)) 1.
Proof.
  intros Ha. unfold image_fragment_main, over_spec, image_color_a, image_color_rgb.
  cbv zeta. rewrite Ha. f_equal. f_equal. f_equal.
  destruct (image_img_color mono use_palette palette (texture image uv)).
  unfold v3scale; cbn. vec_eq.
Qed.

(** C4.  The image stage evaluated on a half-transparent grey texel
    (0.5, 0.5, 0.5, 0.5) under a fully transparent mask, with use_palette and
    mono both off: the stage outputs rgb (1, 1, 1) with alpha 0.5, where the
    "over" operator with base (itex.rgb, itex.a) gives rgb (0.5, 0.5, 0.5):
    the base colour is not multiplied by the base alpha before the division. *)
Theorem image_fragment_drops_base_alpha :
  let h := qc 1 2 in
  let image := const_sampler (Vec4 h h h h) in
  let mask := const_sampler (Vec4 0 0 0 0) in
  let uv := Vec2 0 0 in
  image_fragment_main false false image mask grey_ramp uv
    = FragColor (Some (Vec3 1 1 1)) h /\
  over_spec (rgb (texture mask uv)) (chan_a (texture mask uv))
            (rgb (texture image uv)) (chan_a (texture image uv))
    = FragColor (Some (Vec3 h h h)) h /\
  FragColor (Some (Vec3 1 1 1)) h <> FragColor (Some (rgb (texture image uv))) h.
Proof.
  cbv zeta. split; [| split].
  - unfold image_fragment_main, image_color_a, image_color_rgb, image_img_color,
      texture, const_sampler. cbv zeta.
    assert (Ha : chan_a (Vec4 0 0 0 0) + chan_a (Vec4 (qc 1 2) (qc 1 2) (qc 1 2) (qc 1 2))
                 * (1 - chan_a (Vec4 0 0 0 0)) = qc 1 2) by qc_eq.
    rewrite Ha, v3div_nonzero by discriminate.
    f_equal. f_equal. cbn. f_equal; qc_eq.
  - unfold over_spec, texture, const_sampler. cbv zeta.
    assert (Ha : chan_a (Vec4 0 0 0 0) + chan_a (Vec4 (qc 1 2) (qc 1 2) (qc 1 2) (qc 1 2))
                 * (1 - chan_a (Vec4 0 0 0 0)) = qc 1 2) by qc_eq.
    rewrite Ha, v3div_nonzero by discriminate.
    f_equal. f_equal. cbn. f_equal; qc_eq.
  - intros H. injection H as H _ _. vm_compute in H. discriminate H.
Qed.

(** ** The ring fragment stage *)

Lemma ring_line_weight_suppressed (ties_up : bool)
    (ring_range ring_thickness radius len : Qc) :
  qc 1000 1 < radius \/ radius < ring_range * qc 1 10 ->
  ring_line_weight ties_up ring_range ring_thickness radius len = Some 0.
Proof.
  intros H. unfold ring_line_weight. cbv zeta.
  destruct H as [H | H].
  - now rewrite (bool_decide_eq_true_2 _ H).
  - rewrite (bool_decide_eq_true_2 _ H). now rewrite orb_true_r.
Qed.

Lemma ring_line_weight_formula (ties_up : bool)
    (ring_range ring_thickness radius len : Qc) :
  ring_range <> 0 -> len <> 0 ->
  ~ qc 1000 1 < radius -> ~ radius < ring_range * qc 1 10 ->
  ring_line_weight ties_up ring_range ring_thickness radius len
  = Some (clamp (ring_thickness
                 - Qc_abs (radius - glsl_round ties_up (radius / ring_range) * ring_range)
                   / Qc_abs len) 0 1).
Proof.
  intros Hr Hl H1 H2. unfold ring_line_weight. cbv zeta.
  rewrite (bool_decide_eq_false_2 _ H1), (bool_decide_eq_false_2 _ H2).
  unfold ring_range_from_line, ring_signed_distance.
  rewrite (fdiv_nonzero _ _ Hr). cbn [mbind option_bind].
  rewrite (fdiv_nonzero _ _ Hl). cbn [mbind option_bind orb].
  now rewrite Qc_abs_div.
Qed.

(** The colour written by the stage is 0.15 times the line weight, with
    alpha 1; the radius and the gradient length are the two [length] calls. *)
Lemma ring_fragment_color (length2 : vec2 -> Qc) (ties_up : bool)
    (ring_range ring_thickness : Qc) (ring_xy : vec2) (dFdx_radius dFdy_radius : Qc) :
  ring_fragment_main length2 ties_up ring_range ring_thickness ring_xy
    dFdx_radius dFdy_radius
  = FragColor
      (v3scale (vec3_splat (qc 15 100))
         <$> ring_line_weight ties_up ring_range ring_thickness
               (length2 ring_xy) (length2 (Vec2 dFdx_radius dFdy_radius)))
      1.
Proof.
  unfold ring_fragment_main. cbv zeta. f_equal.
Qed.

(** C8, as the spec states it at radius 2.5: where one pixel spans 50 units
    of radius the weight is 0.1 - 2.5 / 50 = 0.05, not 0. *)
Lemma ring_half_way_weight_not_zero :
  ring_line_weight true (qc 5 1) (qc 1 10) (qc 5 2) (qc 50 1) <> Some 0.
Proof. vm_compute. discriminate. Qed.

(** C8, amended.  The line weight is 0 when the radius exceeds 1000 or is
    below 0.1 * ring_range; otherwise, for a non-zero ring_range and a
    non-zero gradient length, it is
    clamp(ring_thickness - |radius - round(radius / ring_range) * ring_range| / |gradient|, 0, 1).
    With ring_range = 5 and ring_thickness = 0.1: at radius 5 the weight is
    0.1, the whole thickness, for every non-zero gradient length; at radius
    2.5 the weight is 0 for every gradient length in (0, 25], whichever way
    [round] breaks the tie. *)
Theorem ring_fragment_line_weight (ties_up : bool)
    (ring_range ring_thickness radius len : Qc) :
  (qc 1000 1 < radius \/ radius < ring_range * qc 1 10 ->
     ring_line_weight ties_up ring_range ring_thickness radius len = Some 0) /\
  (ring_range <> 0 -> len <> 0 ->
   ~ qc 1000 1 < radius -> ~ radius < ring_range * qc 1 10 ->
     ring_line_weight ties_up ring_range ring_thickness radius len
     = Some (clamp (ring_thickness
                    - Qc_abs (radius - glsl_round ties_up (radius / ring_range) * ring_range)
                      / Qc_abs len) 0 1)) /\
  (len <> 0 ->
     ring_line_weight ties_up (qc 5 1) (qc 1 10) (qc 5 1) len = Some (qc 1 10)) /\
  (0 < len -> len <= qc 25 1 ->
     ring_line_weight ties_up (qc 5 1) (qc 1 10) (qc 5 2) len = Some 0).
Proof.
  split; [apply ring_line_weight_suppressed |].
  split; [apply ring_line_weight_formula |].
  split.
  - intros Hl.
    rewrite ring_line_weight_formula; [| discriminate | assumption
                                       | vm_compute; discriminate
                                       | vm_compute; discriminate].
    assert (Hsd : qc 5 1 - glsl_round ties_up (qc 5 1 / qc 5 1) * qc 5 1 = 0)
      by (destruct ties_up; qc_eq).
    rewrite Hsd.
    assert (H0 : Qc_abs 0 / Qc_abs len = 0).
    { replace (Qc_abs 0) with (Q2Qc 0) by qc_eq. unfold Qcdiv. apply Qcmult_0_l. }
    rewrite H0. f_equal; qc_eq.
  - intros Hpos Hle.
    rewrite ring_line_weight_formula; [| discriminate
                                       | intros ->; revert Hpos; vm_compute; discriminate
                                       | vm_compute; discriminate
                                       | vm_compute; discriminate].
    assert (Hsd : Qc_abs (qc 5 2 - glsl_round ties_up (qc 5 2 / qc 5 1) * qc 5 1) = qc 5 2)
      by (destruct ties_up; qc_eq).
    rewrite Hsd, (Qc_abs_nonneg_id len) by (now apply Qclt_le_weak).
    f_equal. apply clamp_nonpos.
    qc2q.
    assert (Hd : (1 # 10 <= (5 # 2) / this len)%Q).
    { apply Qle_shift_div_l; [exact Hpos | lra]. }
    unfold Qdiv in Hd. lra.
Qed.

Lemma ring_fragment_line_weight_witness :
  ring_line_weight true (qc 5 1) (qc 1 10) (qc 2000 1) (qc 1 10) = Some 0 /\
  ring_line_weight true (qc 5 1) (qc 1 10) (qc 5 1) (qc 1 10) = Some (qc 1 10) /\
  ring_line_weight false (qc 5 1) (qc 1 10) (qc 5 2) (qc 1 10) = Some 0.
Proof.
  split; [| split].
  - destruct (ring_fragment_line_weight true (qc 5 1) (qc 1 10) (qc 2000 1) (qc 1 10))
      as (Hsup & _).
    apply Hsup. left. reflexivity.
  - destruct (ring_fragment_line_weight true (qc 5 1) (qc 1 10) (qc 5 1) (qc 1 10))
      as (_ & _ & Hon & _).
    apply Hon. vm_compute. discriminate.
  - destruct (ring_fragment_line_weight false (qc 5 1) (qc 1 10) (qc 5 1) (qc 1 10))
      as (_ & _ & _ & Hhalf).
    apply Hhalf; [reflexivity | vm_compute; discriminate].
Defined.

(** ** load_texture *)

Lemma gl_bind_run {A B} (m : GL A) (k : A -> GL B) (w w' : world) (a : A) :
  m w = (a, w') -> gl_bind m k w = k a w'.
Proof. intros H. unfold gl_bind. now rewrite H. Qed.

(** The whole effect of one call: the name is bound, its object gets the
    fixed parameters, and level 0 is replaced in the levels it had. *)
Lemma load_texture_run (texture : list Qc) (width height : N)
    (texture_id : N) (internal_format format type : GLenum) (w : world) :
  load_texture texture width height texture_id internal_format format type w
  = (tt, World (gl_shaders w) (gl_programs w)
           (<[texture_id :=
                TextureObj fixed_tex_params
                  (<[0%Z := LevelImage (GLenum_to_GLint internal_format)
                              (size_t_to_GLsizei width) (size_t_to_GLsizei height)
                              format type texture]>
                     (levels_of w texture_id))]> (gl_textures w))
           texture_id (stdout w)).
Proof.
  unfold load_texture.
  do 7 (erewrite gl_bind_run by reflexivity;
        unfold set_textures;
        cbn [gl_shaders gl_programs gl_textures gl_bound_texture_2d stdout]).
  unfold glTexImage2D, set_textures, levels_of.
  cbn [gl_shaders gl_programs gl_textures gl_bound_texture_2d stdout].
  f_equal. f_equal.
  destruct (gl_textures w !! texture_id) as [t0 |] eqn:Ht.
  - rewrite (alter_alt_Some _ (gl_textures w) _ _ Ht).
    rewrite !alter_insert_eq. reflexivity.
  - rewrite !alter_insert_eq. reflexivity.
Qed.

(** Sizes and enumerants below 2^31 pass the conversions unchanged. *)
Lemma int32_wrap_small (z : Z) : (0 <= z < 2 ^ 31)%Z -> int32_wrap z = z.
Proof.
  intros Hz. unfold int32_wrap.
  rewrite Z.mod_small by lia. lia.
Qed.

Lemma int32_wrap_range (z : Z) : (- 2 ^ 31 <= int32_wrap z < 2 ^ 31)%Z.
Proof.
  unfold int32_wrap.
  pose proof (Z.mod_pos_bound (z + 2 ^ 31) (2 ^ 32) ltac:(lia)). lia.
Qed.


(** A width of 2^32 + 1 reaches the GL as 1, and the default internal
    format as itself. *)
Example load_texture_narrows_width :
  let w' := (load_texture_default [1; 0; 0]%Qc (2 ^ 32 + 1) 1 7 empty_world).2 in
  (fun l => (li_internal_format l, li_width l, li_height l))
    <$> levels_of w' 7 !! 0%Z
  = Some (GL_RGB, 1%Z, 1%Z).
Proof. vm_compute. reflexivity. Qed.

(** With the default format arguments, on a context without textures: the
    pose texture of one pose becomes texture 7 with the fixed policy. *)
Example load_texture_default_policy :
  let w' := (load_texture_default [1; 0; 0; 0; 1; 0; 0; 0; 1; 0; 0; 0]%Qc 1 4 7
               empty_world).2 in
  tx_params <$> gl_textures w' !! 7%N = Some fixed_tex_params /\
  gl_bound_texture_2d w' = 7%N.
Proof. vm_compute. auto. Qed.

(** ** load_shaders *)

Local Open Scope Z_scope.

Lemma substring_all (s : string) : String.substring 0 (String.length s) s = s.
Proof. induction s as [| c s IH]; [reflexivity |]. cbn. now rewrite IH. Qed.

Lemma copy_info_log_full (log : string) :
  copy_info_log (info_log_length_of log) log = log.
Proof.
  unfold copy_info_log, info_log_length_of. destruct log as [| c l]; [reflexivity |].
  replace (Z.to_nat (Z.of_nat (String.length (String c l)) + 1 - 1))
    with (String.length (String c l)) by lia.
  apply substring_all.
Qed.

Lemma info_log_length_pos (log : string) :
  (0 <? info_log_length_of log) = bool_decide (log <> EmptyString).
Proof.
  destruct log as [| c l]; [reflexivity |].
  unfold info_log_length_of. rewrite bool_decide_eq_true_2 by discriminate.
  apply Z.ltb_lt. lia.
Qed.

Lemma printed_cons (log : string) (logs : list string) :
  printed (log :: logs) = printed [log] ++ printed logs.
Proof.
  unfold printed. cbn. destruct (decide (log <> EmptyString)); reflexivity.
Qed.

Lemma printed_empty : printed [EmptyString] = [].
Proof. reflexivity. Qed.

Lemma printed_nonempty (log : string) :
  log <> EmptyString -> printed [log] = [String.append log newline].
Proof.
  intros H. unfold printed. rewrite filter_cons_True by assumption. reflexivity.
Qed.

Lemma report_shader_log (id : N) (s : shader_obj) (w : world) :
  gl_shaders w !! id = Some s ->
  when (0 <? info_log_length_of (sh_info_log s))
       (gl_bind (glGetShaderInfoLog id (info_log_length_of (sh_info_log s)))
                (fun msg => printf_line msg)) w
  = (tt, emit (sh_info_log s) w).
Proof.
  intros Hs. rewrite info_log_length_pos. unfold when, emit.
  case_bool_decide as Hlog.
  - unfold gl_bind, glGetShaderInfoLog, printf_line, gl_ret. rewrite Hs.
    rewrite copy_info_log_full, printed_nonempty by assumption. reflexivity.
  - rewrite Hlog, printed_empty, app_nil_r.
    unfold gl_ret. now destruct w.
Qed.

Lemma report_program_log (id : N) (p : program_obj) (w : world) :
  gl_programs w !! id = Some p ->
  when (0 <? info_log_length_of (pr_info_log p))
       (gl_bind (glGetProgramInfoLog id (info_log_length_of (pr_info_log p)))
                (fun msg => printf_line msg)) w
  = (tt, emit (pr_info_log p) w).
Proof.
  intros Hs. rewrite info_log_length_pos. unfold when, emit.
  case_bool_decide as Hlog.
  - unfold gl_bind, glGetProgramInfoLog, printf_line, gl_ret. rewrite Hs.
    rewrite copy_info_log_full, printed_nonempty by assumption. reflexivity.
  - rewrite Hlog, printed_empty, app_nil_r.
    unfold gl_ret. now destruct w.
Qed.

Section LoadShaders.
Variable compile : shader_type -> string -> bool * string.
Variable link : list shader_obj -> bool * string.
Variable indeterminate : Z.

Lemma gen_name_fresh (w : world) :
  gl_shaders w !! gen_name w = None /\ gl_programs w !! gen_name w = None /\
  gen_name w <> 0%N.
Proof.
  pose proof (is_fresh (dom (gl_shaders w) ∪ dom (gl_programs w) ∪ {[0%N]})) as H.
  fold (gen_name w) in H.
  rewrite !not_elem_of_union, !not_elem_of_dom, not_elem_of_singleton in H.
  tauto.
Qed.

Lemma not_attached_fresh (w : world) (sid : N) :
  gl_wf w -> gl_shaders w !! sid = None ->
  attached_somewhere sid (gl_programs w) = false.
Proof.
  intros Hwf Hs. unfold attached_somewhere. apply bool_decide_eq_false_2.
  intros (pid & p & Hp & Hin).
  destruct (Hwf pid p sid Hp Hin) as [s Hs']. congruence.
Qed.


Lemma compile_let (ty : shader_type) (src : string) (flag : bool) :
  (let (ok, log) := compile ty src in ShaderObj ty src ok log flag)
  = ShaderObj ty src (compile ty src).1 (compile ty src).2 flag.
Proof. now destruct (compile ty src). Qed.

Lemma link_let (l : list N) (shs : list shader_obj) :
  (let (ok, log) := link shs in ProgramObj l ok log)
  = ProgramObj l (link shs).1 (link shs).2.
Proof. now destruct (link shs). Qed.

Lemma not_attached_insert (P : gmap N program_obj) (pid sid : N) (p : program_obj) :
  attached_somewhere sid P = false -> sid ∉ pr_attached p ->
  attached_somewhere sid (<[pid := p]> P) = false.
Proof.
  unfold attached_somewhere. intros HP Hp.
  apply bool_decide_eq_false in HP. apply bool_decide_eq_false_2.
  intros [H | H]%map_Exists_insert_1; [contradiction | contradiction].
Qed.

Lemma gen_name_dom (w w' : world) :
  dom (gl_shaders w) = dom (gl_shaders w') ->
  dom (gl_programs w) = dom (gl_programs w') ->
  gen_name w = gen_name w'.
Proof. intros H1 H2. unfold gen_name. now rewrite H1, H2. Qed.

Ltac gl_step :=
  erewrite gl_bind_run by reflexivity;
  unfold set_shaders, set_programs, emit;
  cbn [gl_shaders gl_programs gl_textures gl_bound_texture_2d stdout].

Lemma load_shaders_run (vs fs : string) (w : world) :
  gl_wf w ->
  let vsh := compiled_shader compile GL_VERTEX_SHADER vs in
  let fsh := compiled_shader compile GL_FRAGMENT_SHADER fs in
  let status := link [vsh; fsh] in
  exists vid fid pid,
    created_names w = (vid, fid, pid) /\
    load_shaders compile link indeterminate vs fs w
    = (pid, World (gl_shaders w)
                  (<[pid := ProgramObj [] status.1 status.2]> (gl_programs w))
                  (gl_textures w) (gl_bound_texture_2d w)
                  (stdout w ++ printed [sh_info_log vsh; sh_info_log fsh; status.2])).
Proof.
  intros Hwf. cbv zeta. unfold created_names, load_shaders. cbv zeta.
  destruct (gen_name_fresh w) as (Hv1 & Hv2 & Hv3).
  pose proof (not_attached_fresh w _ Hwf Hv1) as Hva.
  remember (gen_name w) as vid eqn:Evid.
  set (w1 := set_shaders _ w).
  destruct (gen_name_fresh w1) as (Hf1 & Hf2 & Hf3).
  assert (Hvf : vid <> gen_name w1).
  { intros E. rewrite <- E in Hf1. unfold w1 in Hf1. cbn in Hf1.
    rewrite lookup_insert_eq in Hf1. discriminate. }
  assert (Hf1' : gl_shaders w !! gen_name w1 = None).
  { unfold w1 in Hf1 at 1. cbn in Hf1. now rewrite lookup_insert_ne in Hf1. }
  pose proof (not_attached_fresh w _ Hwf Hf1') as Hfa.
  assert (Hfv : gen_name w1 <> vid) by congruence.
  remember (gen_name w1) as fid eqn:Efid.
  set (w2 := set_shaders _ w1).
  destruct (gen_name_fresh w2) as (Hp1 & Hp2 & Hp3).
  remember (gen_name w2) as pid eqn:Epid.
  exists vid, fid, pid. split; [reflexivity |].
  erewrite gl_bind_run by reflexivity. rewrite <- Evid. fold w1.
  erewrite gl_bind_run by reflexivity. rewrite <- Efid. fold w2.
  clear Evid Efid. subst w2 w1. destruct w as [m P T b o].
  unfold set_shaders in *.
  cbn [gl_shaders gl_programs gl_textures gl_bound_texture_2d stdout] in *.
  (* compile and check the vertex shader *)
  gl_step. rewrite alter_insert_ne, alter_insert_eq by done. cbn [sh_type sh_source sh_compile_status sh_info_log sh_delete_flag].
  gl_step. rewrite alter_insert_ne, alter_insert_eq by done. cbn [sh_type sh_source sh_compile_status sh_info_log sh_delete_flag].
  rewrite compile_let. fold (compiled_shader compile GL_VERTEX_SHADER vs).
  gl_step. gl_step. rewrite lookup_insert_ne, lookup_insert_eq by done.
  erewrite gl_bind_run
    by (apply (report_shader_log vid (compiled_shader compile GL_VERTEX_SHADER vs));
        cbn; rewrite lookup_insert_ne, lookup_insert_eq by done; reflexivity).
  unfold emit; cbn [gl_shaders gl_programs gl_textures gl_bound_texture_2d stdout].
  (* compile and check the fragment shader *)
  gl_step. rewrite alter_insert_eq. cbn [sh_type sh_source sh_compile_status sh_info_log sh_delete_flag].
  gl_step. rewrite alter_insert_eq. cbn [sh_type sh_source sh_compile_status sh_info_log sh_delete_flag].
  rewrite compile_let. fold (compiled_shader compile GL_FRAGMENT_SHADER fs).
  gl_step. gl_step. rewrite lookup_insert_eq.
  erewrite gl_bind_run
    by (apply (report_shader_log fid (compiled_shader compile GL_FRAGMENT_SHADER fs));
        cbn; rewrite lookup_insert_eq; reflexivity).
  unfold emit; cbn [gl_shaders gl_programs gl_textures gl_bound_texture_2d stdout].
  (* link the program *)
  gl_step.
  match goal with |- context [gen_name ?w'] =>
    replace (gen_name w') with pid
      by (rewrite Epid; apply gen_name_dom; cbn; [now rewrite !dom_insert_L | reflexivity])
  end.
  clear Epid.
  assert (Hpv : pid <> vid).
  { intros ->. rewrite lookup_insert_ne, lookup_insert_eq in Hp1 by done. discriminate. }
  assert (Hpf : pid <> fid).
  { intros ->. rewrite lookup_insert_eq in Hp1. discriminate. }
  gl_step. rewrite lookup_insert_ne, lookup_insert_eq by done.
  unfold set_programs; cbn [gl_shaders gl_programs gl_textures gl_bound_texture_2d stdout].
  rewrite alter_insert_eq. cbn [pr_attached pr_link_status pr_info_log app].
  rewrite bool_decide_eq_false_2 by apply not_elem_of_nil.
  gl_step. rewrite lookup_insert_eq.
  unfold set_programs; cbn [gl_shaders gl_programs gl_textures gl_bound_texture_2d stdout].
  rewrite alter_insert_eq. cbn [pr_attached pr_link_status pr_info_log app].
  rewrite bool_decide_eq_false_2 by (rewrite list_elem_of_singleton; done).
  cbn [app].
  gl_step. rewrite alter_insert_eq. cbn [pr_attached pr_link_status pr_info_log omap list_omap].
  rewrite lookup_insert_ne, !lookup_insert_eq by done.
  rewrite link_let.
  set (vsh := compiled_shader compile GL_VERTEX_SHADER vs) in *.
  set (fsh := compiled_shader compile GL_FRAGMENT_SHADER fs) in *.
  set (status := link [vsh; fsh]).
  (* check the program *)
  gl_step. gl_step. rewrite lookup_insert_eq. cbn [pr_info_log].
  erewrite gl_bind_run
    by (apply (report_program_log pid (ProgramObj [vid; fid] status.1 status.2));
        cbn; rewrite lookup_insert_eq; reflexivity).
  unfold emit; cbn [gl_shaders gl_programs gl_textures gl_bound_texture_2d stdout pr_info_log].
  (* detach *)
  gl_step. rewrite alter_insert_eq. cbn [pr_attached pr_link_status pr_info_log].
  rewrite filter_cons_False, filter_cons_True, filter_nil by (try done; intros H; now apply H).
  unfold reap_shader; cbn [gl_shaders gl_programs gl_textures gl_bound_texture_2d stdout].
  rewrite lookup_insert_ne, lookup_insert_eq by done.
  cbn [sh_delete_flag vsh compiled_shader andb].
  gl_step. rewrite alter_insert_eq. cbn [pr_attached pr_link_status pr_info_log].
  rewrite filter_cons_False, filter_nil by (intros H; now apply H).
  unfold reap_shader; cbn [gl_shaders gl_programs gl_textures gl_bound_texture_2d stdout].
  rewrite lookup_insert_eq.
  cbn [sh_delete_flag fsh compiled_shader andb].
  (* delete *)
  assert (Hna : forall sid, attached_somewhere sid P = false ->
            attached_somewhere sid (<[pid := ProgramObj [] status.1 status.2]> P) = false).
  { intros sid Hs. apply not_attached_insert; [assumption | apply not_elem_of_nil]. }
  gl_step. unfold reap_shader; cbn [gl_shaders gl_programs gl_textures gl_bound_texture_2d stdout].
  rewrite alter_insert_ne, alter_insert_eq by done.
  rewrite lookup_insert_ne, lookup_insert_eq by done.
  cbn [sh_delete_flag]. rewrite (Hna vid Hva). cbn [andb negb].
  unfold set_shaders; cbn [gl_shaders gl_programs gl_textures gl_bound_texture_2d stdout].
  rewrite delete_insert_ne, delete_insert_eq by done. rewrite (delete_id m vid Hv1).
  gl_step. unfold reap_shader; cbn [gl_shaders gl_programs gl_textures gl_bound_texture_2d stdout].
  rewrite alter_insert_eq, lookup_insert_eq.
  cbn [sh_delete_flag]. rewrite (Hna fid Hfa). cbn [andb negb].
  unfold set_shaders; cbn [gl_shaders gl_programs gl_textures gl_bound_texture_2d stdout].
  rewrite delete_insert_eq. rewrite (delete_id m fid Hf1').
  unfold gl_ret. f_equal. f_equal.
  rewrite (printed_cons _ [_; _]), (printed_cons _ [_]). now rewrite !app_assoc.
Qed.
End LoadShaders.

Lemma gl_wf_empty : gl_wf empty_world.
Proof. intros pid p sid H. cbn in H. rewrite lookup_empty in H. discriminate H. Qed.

(** C6. For every pair of sources and every answer of the driver's compiler
    and linker, [load_shaders] returns the name [glCreateProgram] produced: a
    non-zero name that was not a program before and that does not depend on
    the sources or on any compile or link outcome, so no failure is visible
    in the returned value.  The information logs only reach the standard
    output (each non-empty log on a line of its own), the program object
    carries the link status with no stage attached, and both stage objects
    created by the call are gone once it returns: the shader table is the one
    before the call. *)
Theorem load_shaders_returns_program
    (compile : shader_type -> string -> bool * string)
    (link : list shader_obj -> bool * string) (indeterminate : GLint)
    (vertex_shader_code fragment_shader_code : string) (w : world) :
  gl_wf w ->
  let r := load_shaders compile link indeterminate
             vertex_shader_code fragment_shader_code w in
  let vsh := compiled_shader compile GL_VERTEX_SHADER vertex_shader_code in
  let fsh := compiled_shader compile GL_FRAGMENT_SHADER fragment_shader_code in
  let status := link [vsh; fsh] in
  let vid := (created_names w).1.1 in
  let fid := (created_names w).1.2 in
  r.1 = (created_names w).2 /\
  r.1 <> 0%N /\ gl_programs w !! r.1 = None /\
  (forall compile' link' indeterminate' vs' fs',
     (load_shaders compile' link' indeterminate' vs' fs' w).1 = r.1) /\
  gl_programs r.2 = <[r.1 := ProgramObj [] status.1 status.2]> (gl_programs w) /\
  vid <> fid /\ gl_shaders r.2 !! vid = None /\ gl_shaders r.2 !! fid = None /\
  gl_shaders r.2 = gl_shaders w /\
  stdout r.2 = stdout w ++ printed [sh_info_log vsh; sh_info_log fsh; status.2] /\
  gl_textures r.2 = gl_textures w /\
  gl_bound_texture_2d r.2 = gl_bound_texture_2d w /\
  gl_wf r.2.
Proof.
  intros Hwf. cbv zeta.
  destruct (load_shaders_run compile link indeterminate
              vertex_shader_code fragment_shader_code w Hwf)
    as (vid & fid & pid & Hnames & Hrun).
  rewrite Hrun, Hnames. cbn [fst snd gl_shaders gl_programs gl_textures
                             gl_bound_texture_2d stdout].
  unfold created_names in Hnames. cbv zeta in Hnames.
  injection Hnames as Hvid Hfid Hpid.
  destruct (gen_name_fresh w) as (Hv1 & _ & _). rewrite Hvid in Hv1, Hfid, Hpid.
  match type of Hfid with gen_name ?w1 = _ =>
    destruct (gen_name_fresh w1) as (Hf1 & _ & _) end.
  rewrite Hfid in Hf1. unfold set_shaders in Hf1. cbn [gl_shaders] in Hf1.
  match type of Hpid with gen_name ?w2 = _ =>
    destruct (gen_name_fresh w2) as (_ & Hp2 & Hp3) end.
  rewrite Hpid in Hp2, Hp3. unfold set_shaders in Hp2. cbn [gl_programs] in Hp2.
  assert (Hvf : vid <> fid).
  { intros ->. rewrite lookup_insert_eq in Hf1. discriminate Hf1. }
  rewrite lookup_insert_ne in Hf1 by assumption.
  repeat split; try assumption; try reflexivity.
  - intros compile' link' indeterminate' vs' fs'.
    destruct (load_shaders_run compile' link' indeterminate' vs' fs' w Hwf)
      as (vid' & fid' & pid' & Hnames' & Hrun').
    rewrite Hrun'. cbn [fst].
    unfold created_names in Hnames'. cbv zeta in Hnames'. congruence.
  - intros q p sid Hq Hin. cbn [gl_programs gl_shaders] in *.
    destruct (decide (pid = q)) as [-> | Hne].
    + rewrite lookup_insert_eq in Hq. injection Hq as <-.
      cbn in Hin. now apply not_elem_of_nil in Hin.
    + rewrite lookup_insert_ne in Hq by assumption. eapply Hwf; eauto.
Qed.

Lemma load_shaders_returns_program_witness :
  let r := load_shaders strict_compile strict_link 0
             EmptyString "void main() {}" empty_world in
  gl_shaders r.2 = gl_shaders empty_world /\
  stdout r.2
  = stdout empty_world
    ++ printed [sh_info_log (compiled_shader strict_compile GL_VERTEX_SHADER EmptyString);
                sh_info_log (compiled_shader strict_compile GL_FRAGMENT_SHADER
                               "void main() {}");
                (strict_link
                   [compiled_shader strict_compile GL_VERTEX_SHADER EmptyString;
                    compiled_shader strict_compile GL_FRAGMENT_SHADER
                      "void main() {}"]).2].
Proof.
  destruct (load_shaders_returns_program strict_compile strict_link 0
              EmptyString "void main() {}" empty_world gl_wf_empty)
    as (_ & _ & _ & _ & _ & _ & _ & _ & Hsh & Hout & _).
  split; assumption.
Defined.

(** A failed vertex compile on an empty context: the handle 3 comes back all
    the same, two diagnostics were printed, and no shader object is left. *)
Example load_shaders_failed_compile :
  let r := load_shaders strict_compile strict_link 0
             EmptyString "void main() {}" empty_world in
  r.1 = 3%N /\
  gl_programs r.2 !! 3%N = Some (ProgramObj [] false "error: link failed") /\
  map_to_list (gl_shaders r.2) = [] /\
  stdout r.2 = [String.append "error: empty source" newline;
                String.append "error: link failed" newline].
Proof. vm_compute. auto. Qed.

(** The same call with two sources that compile returns the same handle. *)
Example load_shaders_successful :
  let r := load_shaders strict_compile strict_link 0
             "void main() {}" "void main() {}" empty_world in
  r.1 = 3%N /\
  gl_programs r.2 !! 3%N = Some (ProgramObj [] true EmptyString) /\
  map_to_list (gl_shaders r.2) = [] /\ stdout r.2 = [].
Proof. vm_compute. auto. Qed.

(** * Further properties of the stages and helpers *)

Local Open Scope Qc_scope.

Lemma Qc_eq_this (x y : Qc) : x = y <-> (this x == this y)%Q.
Proof. split; [intros ->; reflexivity | apply Qc_is_canon]. Qed.

(** Move equalities and order statements on [Qc] to the underlying [Q]. *)
Ltac qc2q_all :=
  rewrite ?Qc_eq_this in *;
  unfold in_unit, qc, Qcle, Qclt, Qcdiv, Qcminus, Qcplus, Qcmult, Qcopp, Qcinv, Q2Qc in *;
  cbn [this] in *; rewrite ?Qred_correct in *.

(** ** The point vertex stage *)

Lemma mat4_mul_vec_rigid_w (m : mat4) (v : vec4) :
  rigid m -> v4w (mat4_mul_vec m v) = v4w v.
Proof.
  destruct m as [[] [] [] []], v. unfold rigid, bottom_row. cbn.
  intros H. injection H as -> -> -> ->. ring.
Qed.

(** Whatever the texture holds, the decoded pose has bottom row (0, 0, 0, 1). *)
Lemma car_pose_rigid (s : sampler2D) (u : Qc) : rigid (car_pose s u).
Proof. reflexivity. Qed.

Lemma local_point_w (model : mat4) (p o : vec3) (range : Qc) :
  rigid model -> v4w (local_point model p o range) = 1.
Proof.
  intros Hm. unfold local_point. case_decide; [| reflexivity].
  now rewrite mat4_mul_vec_rigid_w.
Qed.

(** With a rigid model matrix the point handed to the camera matrix always
    has homogeneous coordinate 1, for valid and invalid returns alike and
    whatever the pose texture contains: gl_Position is proj_view applied to
    some (q, 1). *)
Theorem point_vertex_affine (transformation : sampler2D) (model proj_view : mat4)
    (p_xyz offset : vec3) (range trans_index : Qc) (vkey vmask : vec4) :
  rigid model ->
  exists q : vec3,
    mat4_mul_vec (car_pose transformation trans_index)
                 (local_point model p_xyz offset range) = vec4_of q 1 /\
    pv_gl_Position (point_vertex_main transformation model proj_view
                      p_xyz offset range trans_index vkey vmask)
    = mat4_mul_vec proj_view (vec4_of q 1).
Proof.
  intros Hm.
  set (v := mat4_mul_vec (car_pose transformation trans_index)
                         (local_point model p_xyz offset range)).
  assert (Hw : v4w v = 1).
  { unfold v. rewrite mat4_mul_vec_rigid_w by apply car_pose_rigid.
    now apply local_point_w. }
  exists (xyz v). split.
  - destruct v; cbn in *. now rewrite Hw.
  - unfold point_vertex_main. cbn [pv_gl_Position].
    rewrite mat4_mul_vec_assoc. fold v. destruct v; cbn in *. now rewrite Hw.
Qed.

Lemma point_vertex_affine_witness :
  exists q : vec3,
    mat4_mul_vec (car_pose (nearest_clamp_sampler (pose_set_image two_poses)) 1)
                 (local_point (mat4_translate (Vec3 0 2 0)) (Vec3 0 0 1) (Vec3 0 0 0)
                              (qc 3 1)) = vec4_of q 1 /\
    pv_gl_Position
      (point_vertex_main (nearest_clamp_sampler (pose_set_image two_poses))
         (mat4_translate (Vec3 0 2 0)) mat4_identity (Vec3 0 0 1) (Vec3 0 0 0)
         (qc 3 1) 1 (Vec4 1 0 0 1) (Vec4 0 0 0 0))
    = mat4_mul_vec mat4_identity (vec4_of q 1).
Proof.
  apply (point_vertex_affine (nearest_clamp_sampler (pose_set_image two_poses))
           (mat4_translate (Vec3 0 2 0)) mat4_identity (Vec3 0 0 1) (Vec3 0 0 0)
           (qc 3 1) 1 (Vec4 1 0 0 1) (Vec4 0 0 0 0)).
  reflexivity.
Defined.

(** The decode reads only the first three channels of the four texels: two
    textures that differ in the fourth channel alone (an RGB and an RGBA
    upload of the same poses) decode to the same pose. *)
Theorem car_pose_ignores_alpha (s s' : sampler2D) (trans_index : Qc) :
  (forall uv, xyz (s uv) = xyz (s' uv)) ->
  car_pose s trans_index = car_pose s' trans_index.
Proof.
  intros H. unfold car_pose, texture. cbv zeta.
  pose proof (H (Vec2 trans_index (qc 125 1000))) as H0.
  pose proof (H (Vec2 trans_index (qc 375 1000))) as H1.
  pose proof (H (Vec2 trans_index (qc 625 1000))) as H2.
  pose proof (H (Vec2 trans_index (qc 875 1000))) as H3.
  unfold xyz in *.
  injection H0 as -> -> ->. injection H1 as -> -> ->.
  injection H2 as -> -> ->. injection H3 as -> -> ->. reflexivity.
Qed.

Lemma car_pose_ignores_alpha_witness :
  car_pose (const_sampler (Vec4 1 0 0 1)) 0 = car_pose (const_sampler (Vec4 1 0 0 0)) 0.
Proof.
  apply (car_pose_ignores_alpha (const_sampler (Vec4 1 0 0 1))
           (const_sampler (Vec4 1 0 0 0)) 0).
  intros uv. reflexivity.
Defined.

(** All invalid returns (range <= 0) that select the same pose get one and
    the same clip position, proj_view * (t, 1) with t the translation texel:
    their xyz, offset, range and the model matrix play no part. *)
Theorem invalid_points_collapse (transformation : sampler2D) (proj_view : mat4)
    (trans_index : Qc) (model model' : mat4) (p p' o o' : vec3)
    (range range' : Qc) (k k' m m' : vec4) :
  range <= 0 -> range' <= 0 ->
  pv_gl_Position
    (point_vertex_main transformation model proj_view p o range trans_index k m)
  = pv_gl_Position
      (point_vertex_main transformation model' proj_view p' o' range' trans_index k' m')
  /\
  pv_gl_Position
    (point_vertex_main transformation model proj_view p o range trans_index k m)
  = mat4_mul_vec proj_view
      (vec4_of (xyz (texture transformation (Vec2 trans_index (qc 875 1000)))) 1).
Proof.
  intros H H'. unfold point_vertex_main. cbn [pv_gl_Position].
  rewrite !local_point_invalid by assumption. split; [reflexivity |].
  rewrite mat4_mul_vec_assoc. f_equal.
  unfold car_pose, mat4_mul_vec, v4add, v4scale, vec4_of, xyz, texture. cbn.
  f_equal; ring.
Qed.

Lemma invalid_points_collapse_witness :
  pv_gl_Position
    (point_vertex_main (nearest_clamp_sampler (pose_set_image two_poses))
       mat4_identity mat4_identity (Vec3 1 0 0) (Vec3 0 0 0) 0 1
       (Vec4 1 0 0 1) (Vec4 0 0 0 0))
  = pv_gl_Position
      (point_vertex_main (nearest_clamp_sampler (pose_set_image two_poses))
         (mat4_translate (Vec3 0 2 0)) mat4_identity (Vec3 0 1 0) (Vec3 1 1 1)
         (- (1)) 1 (Vec4 0 1 0 1) (Vec4 0 0 0 0)).
Proof.
  apply (invalid_points_collapse (nearest_clamp_sampler (pose_set_image two_poses))
           mat4_identity 1 mat4_identity (mat4_translate (Vec3 0 2 0))
           (Vec3 1 0 0) (Vec3 0 1 0) (Vec3 0 0 0) (Vec3 1 1 1) 0 (- (1))
           (Vec4 1 0 0 1) (Vec4 0 1 0 1) (Vec4 0 0 0 0) (Vec4 0 0 0 0)).
  - vm_compute. discriminate.
  - vm_compute. discriminate.
Defined.

Lemma nearest_index_high (u : Qc) (W : nat) :
  1 <= u -> nearest_index u W = (W - 1)%nat.
Proof.
  intros Hu. unfold nearest_index.
  assert (Hfl : (Z.of_nat W <= Qc_floor (u * Qc_of_Z (Z.of_nat W)))%Z).
  { unfold Qc_floor, Qcmult, Q2Qc, Qc_of_Z. cbn [this]. rewrite Qred_correct.
    rewrite <- (Qfloor_Z (Z.of_nat W)) at 1. apply Qfloor_resp_le.
    unfold Qcle in Hu. cbn in Hu.
    assert (0 <= inject_Z (Z.of_nat W))%Q.
    { change 0%Q with (inject_Z 0). rewrite <- Zle_Qle. lia. }
    rewrite <- (Qmult_1_l (inject_Z (Z.of_nat W))) at 1.
    now apply Qmult_le_compat_r. }
  lia.
Qed.

Lemma nearest_index_low (u : Qc) (W : nat) :
  u <= 0 -> nearest_index u W = 0%nat.
Proof.
  intros Hu. unfold nearest_index.
  assert (Hfl : (Qc_floor (u * Qc_of_Z (Z.of_nat W)) <= 0)%Z).
  { unfold Qc_floor, Qcmult, Q2Qc, Qc_of_Z. cbn [this]. rewrite Qred_correct.
    change 0%Z with (Qfloor (inject_Z 0)). apply Qfloor_resp_le.
    unfold Qcle in Hu. cbn in Hu.
    assert (0 <= inject_Z (Z.of_nat W))%Q.
    { change 0%Q with (inject_Z 0). rewrite <- Zle_Qle. lia. }
    change (inject_Z 0) with 0%Q.
    rewrite <- (Qmult_0_l (inject_Z (Z.of_nat W))).
    now apply Qmult_le_compat_r. }
  lia.
Qed.

(** A [trans_index] outside [0, 1] is not an error: under the edge clamp a
    coordinate of 1 or more decodes the last pose of the set and a
    coordinate of 0 or less the first. *)
Theorem pose_texture_edge_clamp (poses : list mat4) (M0 Ml : mat4) (u : Qc) :
  poses !! 0%nat = Some M0 -> rigid M0 ->
  poses !! (length poses - 1)%nat = Some Ml -> rigid Ml ->
  (u <= 0 -> car_pose (nearest_clamp_sampler (pose_set_image poses)) u = M0) /\
  (1 <= u -> car_pose (nearest_clamp_sampler (pose_set_image poses)) u = Ml).
Proof.
  intros H0 R0 Hl Rl. split; intros Hu.
  - apply (car_pose_of_column poses 0); try assumption.
    now apply nearest_index_low.
  - apply (car_pose_of_column poses (length poses - 1)); try assumption.
    now apply nearest_index_high.
Qed.

Lemma pose_texture_edge_clamp_witness :
  car_pose (nearest_clamp_sampler (pose_set_image two_poses)) (- (1)) = mat4_identity /\
  car_pose (nearest_clamp_sampler (pose_set_image two_poses)) (qc 7 2)
  = mat4_translate (Vec3 1 0 0).
Proof.
  split.
  - apply (proj1 (pose_texture_edge_clamp two_poses mat4_identity
                    (mat4_translate (Vec3 1 0 0)) (- (1))
                    eq_refl eq_refl eq_refl eq_refl)).
    vm_compute. discriminate.
  - apply (proj2 (pose_texture_edge_clamp two_poses mat4_identity
                    (mat4_translate (Vec3 1 0 0)) (qc 7 2)
                    eq_refl eq_refl eq_refl eq_refl)).
    vm_compute. discriminate.
Defined.

(** Codec and transform composed: when [trans_index] selects the column in
    which the host stored the rigid pose [M], the clip position is
    proj_view * M * local_point, the pose exactly as stored. *)
Theorem point_vertex_applies_stored_pose (poses : list mat4) (c : nat) (M : mat4)
    (model proj_view : mat4) (p_xyz offset : vec3) (range trans_index : Qc)
    (vkey vmask : vec4) :
  poses !! c = Some M -> rigid M ->
  nearest_index trans_index (length poses) = c ->
  pv_gl_Position
    (point_vertex_main (nearest_clamp_sampler (pose_set_image poses)) model proj_view
       p_xyz offset range trans_index vkey vmask)
  = mat4_mul_vec proj_view (mat4_mul_vec M (local_point model p_xyz offset range)).
Proof.
  intros Hc HM Hidx. unfold point_vertex_main. cbn [pv_gl_Position].
  rewrite mat4_mul_vec_assoc.
  now rewrite (car_pose_of_column poses c M trans_index Hc HM Hidx).
Qed.

Lemma point_vertex_applies_stored_pose_witness :
  pv_gl_Position
    (point_vertex_main (nearest_clamp_sampler (pose_set_image two_poses))
       mat4_identity mat4_identity (Vec3 0 0 1) (Vec3 0 0 0) (qc 3 1) 1
       (Vec4 1 0 0 1) (Vec4 0 0 0 0))
  = mat4_mul_vec mat4_identity
      (mat4_mul_vec (mat4_translate (Vec3 1 0 0))
         (local_point mat4_identity (Vec3 0 0 1) (Vec3 0 0 0) (qc 3 1))).
Proof.
  apply (point_vertex_applies_stored_pose two_poses 1 (mat4_translate (Vec3 1 0 0))
           mat4_identity mat4_identity (Vec3 0 0 1) (Vec3 0 0 0) (qc 3 1) 1
           (Vec4 1 0 0 1) (Vec4 0 0 0 0)).
  - reflexivity.
  - reflexivity.
  - vm_compute. reflexivity.
Defined.

(** ** The compositing arithmetic *)

Lemma over_alpha_unit (a k : Qc) :
  in_unit a -> in_unit k -> in_unit (a + k * (1 - a)).
Proof. intros [] []. qc2q_all. split; nra. Qed.

Lemma over_alpha_zero (a k : Qc) :
  in_unit a -> in_unit k -> (a + k * (1 - a) = 0 <-> a = 0 /\ k = 0).
Proof.
  intros [Ha0 Ha1] [Hk0 Hk1]. split.
  - intros H. qc2q_all. split; nra.
  - intros [-> ->]. ring.
Qed.

Lemma over_channel_between (lo hi m c a k : Qc) :
  in_unit a -> in_unit k -> a + k * (1 - a) <> 0 ->
  lo <= m /\ m <= hi -> lo <= c /\ c <= hi ->
  lo <= (m * a + c * k * (1 - a)) / (a + k * (1 - a)) /\
  (m * a + c * k * (1 - a)) / (a + k * (1 - a)) <= hi.
Proof.
  intros [Ha0 Ha1] [Hk0 Hk1] Hd [Hm0 Hm1] [Hc0 Hc1].
  assert (HD : 0 < a + k * (1 - a)).
  { destruct (Qcle_lt_or_eq 0 (a + k * (1 - a))) as [? | E]; [| assumption |].
    - apply (over_alpha_unit a k); split; assumption.
    - now symmetry in E. }
  clear Hd. qc2q_all.
  set (D := (this a + this k * (1 + - this a))%Q) in *.
  set (Nm := (this m * this a + this c * this k * (1 + - this a))%Q).
  assert (Hw : (0 <= this k * (1 + - this a))%Q) by nra.
  split.
  - apply Qle_shift_div_l; [exact HD |]. unfold D, Nm. nra.
  - apply Qle_shift_div_r; [exact HD |]. unfold D, Nm. nra.
Qed.

(** ** The point fragment stage *)

(** For alphas in [0, 1] the output alpha is in [0, 1] again; it is 0
    exactly when mask alpha and key alpha are both 0, and that is the one
    case in which the stage divides by zero. *)
Theorem point_fragment_alpha_range (mono : bool) (palette : sampler2D)
    (key mask : vec4) :
  in_unit (chan_a mask) -> in_unit (chan_a key) ->
  let out := point_fragment_main mono palette key mask in
  in_unit (out_a out) /\
  (out_a out = 0 <-> chan_a mask = 0 /\ chan_a key = 0) /\
  (out_rgb out = None <-> chan_a mask = 0 /\ chan_a key = 0).
Proof.
  intros Hm Hk. cbv zeta. unfold point_fragment_main. cbn [out_a out_rgb].
  unfold point_color_a.
  split; [now apply over_alpha_unit |].
  split; [now apply over_alpha_zero |].
  rewrite <- (over_alpha_zero _ _ Hm Hk).
  unfold v3div. case_decide; split; try done.
Qed.

Lemma point_fragment_alpha_range_witness :
  in_unit (out_a (point_fragment_main false grey_ramp
                    (Vec4 1 0 0 (qc 1 4)) (Vec4 0 1 0 (qc 1 2)))).
Proof.
  apply (point_fragment_alpha_range false grey_ramp
           (Vec4 1 0 0 (qc 1 4)) (Vec4 0 1 0 (qc 1 2))).
  - split; vm_compute; discriminate.
  - split; vm_compute; discriminate.
Defined.

(** The composite stays inside the range of its inputs: for alphas in
    [0, 1], not both 0, every channel of the output colour lies between any
    bounds that hold for that channel of the mask colour and of the base
    colour. *)
Theorem point_fragment_between (mono : bool) (palette : sampler2D) (key mask : vec4)
    (lo hi : Qc) :
  in_unit (chan_a mask) -> in_unit (chan_a key) ->
  ~ (chan_a mask = 0 /\ chan_a key = 0) ->
  v3_between lo hi (rgb mask) ->
  v3_between lo hi (point_base_color mono palette key) ->
  exists v, out_rgb (point_fragment_main mono palette key mask) = Some v /\
            v3_between lo hi v.
Proof.
  intros Hm Hk Hnz Bm Bc.
  assert (Hd : chan_a mask + chan_a key * (1 - chan_a mask) <> 0).
  { intros E. apply Hnz. now apply over_alpha_zero. }
  unfold point_fragment_main. cbn [out_rgb]. unfold point_color_a.
  rewrite v3div_nonzero by assumption. eexists. split; [reflexivity |].
  unfold point_color_rgb.
  destruct (point_base_color mono palette key) as [cx cy cz].
  destruct (rgb mask) as [mx my mz].
  destruct Bm as (Bx & By & Bz), Bc as (Cx & Cy & Cz).
  unfold v3_between, v3add, v3scale in *. cbn [v3x v3y v3z] in *.
  split; [| split]; now apply over_channel_between.
Qed.

Lemma point_fragment_between_witness :
  exists v, out_rgb (point_fragment_main false grey_ramp
                       (Vec4 1 0 0 (qc 1 4)) (Vec4 0 1 0 (qc 1 2))) = Some v /\
            v3_between 0 1 v.
Proof.
  apply (point_fragment_between false grey_ramp
           (Vec4 1 0 0 (qc 1 4)) (Vec4 0 1 0 (qc 1 2)) 0 1).
  - split; vm_compute; discriminate.
  - split; vm_compute; discriminate.
  - intros [H _]. vm_compute in H. discriminate H.
  - repeat split; vm_compute; discriminate.
  - repeat split; vm_compute; discriminate.
Defined.

(** Over an opaque base (key.a = 1) the division disappears: the output is
    the linear blend mask.rgb * mask.a + c * (1 - mask.a) with alpha 1, for
    every mask alpha. *)
Theorem point_fragment_opaque_base (mono : bool) (palette : sampler2D)
    (key mask : vec4) :
  chan_a key = 1 ->
  point_fragment_main mono palette key mask
  = FragColor (Some (v3add (v3scale (rgb mask) (chan_a mask))
                           (v3scale (point_base_color mono palette key)
                                    (1 - chan_a mask)))) 1.
Proof.
  intros Hk. unfold point_fragment_main, point_color_a, point_color_rgb. rewrite Hk.
  assert (Ha : chan_a mask + 1 * (1 - chan_a mask) = 1) by ring.
  rewrite Ha, v3div_nonzero by discriminate.
  destruct (point_base_color mono palette key) as [cx cy cz].
  destruct (rgb mask) as [mx my mz]. unfold v3add, v3scale. cbn.
  f_equal. f_equal. f_equal; field; discriminate.
Qed.

Lemma point_fragment_opaque_base_witness :
  point_fragment_main false grey_ramp (Vec4 1 0 0 1) (Vec4 0 1 0 (qc 1 2))
  = FragColor (Some (v3add (v3scale (rgb (Vec4 0 1 0 (qc 1 2)))
                                    (chan_a (Vec4 0 1 0 (qc 1 2))))
                           (v3scale (point_base_color false grey_ramp (Vec4 1 0 0 1))
                                    (1 - chan_a (Vec4 0 1 0 (qc 1 2)))))) 1.
Proof.
  apply (point_fragment_opaque_base false grey_ramp (Vec4 1 0 0 1)
           (Vec4 0 1 0 (qc 1 2))).
  reflexivity.
Defined.

(** What the stage reads: with mono off the palette is never sampled, and
    with mono on the green and blue of the key are never read (two keys with
    the same red and alpha give the same output). *)
Theorem point_fragment_inputs_read (palette palette' : sampler2D)
    (key key' mask : vec4) :
  point_fragment_main false palette key mask
  = point_fragment_main false palette' key mask /\
  (chan_r key = chan_r key' -> chan_a key = chan_a key' ->
   point_fragment_main true palette key mask
   = point_fragment_main true palette key' mask).
Proof.
  split; [reflexivity |]. intros Hr Ha.
  unfold point_fragment_main, point_color_a, point_color_rgb, point_base_color.
  now rewrite Hr, Ha.
Qed.

Lemma point_fragment_inputs_read_witness :
  point_fragment_main true grey_ramp (Vec4 (qc 1 2) 0 1 1) (Vec4 0 1 0 (qc 1 2))
  = point_fragment_main true grey_ramp (Vec4 (qc 1 2) 1 0 1) (Vec4 0 1 0 (qc 1 2)).
Proof.
  apply (proj2 (point_fragment_inputs_read grey_ramp grey_ramp
                  (Vec4 (qc 1 2) 0 1 1) (Vec4 (qc 1 2) 1 0 1) (Vec4 0 1 0 (qc 1 2))));
    reflexivity.
Defined.

(** ** The image fragment stage *)

(** An opaque mask texel covers the image: the output is (m.rgb, 1)
    whatever the image texel, its alpha, the palette and the two flags. *)
Theorem image_fragment_opaque_mask (mono use_palette : bool)
    (image mask palette : sampler2D) (uv : vec2) :
  chan_a (texture mask uv) = 1 ->
  image_fragment_main mono use_palette image mask palette uv
  = FragColor (Some (rgb (texture mask uv))) 1.
Proof.
  intros Hm. unfold image_fragment_main, image_color_a, image_color_rgb. cbv zeta.
  rewrite Hm.
  assert (Ha : 1 + chan_a (texture image uv) * (1 - 1) = 1) by ring.
  rewrite Ha, v3div_nonzero by discriminate.
  destruct (image_img_color mono use_palette palette (texture image uv)) as [cx cy cz].
  destruct (rgb (texture mask uv)) as [mx my mz]. unfold v3add, v3scale. cbn.
  f_equal. f_equal. f_equal; field; discriminate.
Qed.

Lemma image_fragment_opaque_mask_witness :
  image_fragment_main true false (const_sampler (Vec4 1 1 1 0))
    (const_sampler (Vec4 1 0 0 1)) grey_ramp (Vec2 0 0)
  = FragColor (Some (rgb (texture (const_sampler (Vec4 1 0 0 1)) (Vec2 0 0)))) 1.
Proof.
  apply (image_fragment_opaque_mask true false (const_sampler (Vec4 1 1 1 0))
           (const_sampler (Vec4 1 0 0 1)) grey_ramp (Vec2 0 0)).
  reflexivity.
Defined.

(** On an opaque image texel the image stage computes what the point stage
    computes for key = itex and mask = m whenever mono is off or use_palette
    is on.  With mono on and use_palette off it takes the grey of itex.r in
    place of the palette colour, and computes what the point stage computes
    with mono off for the key (itex.r, itex.r, itex.r, itex.a). *)
Theorem image_fragment_matches_point (mono use_palette : bool)
    (image mask palette : sampler2D) (uv : vec2) :
  chan_a (texture image uv) = 1 ->
  let itex := texture image uv in
  let m := texture mask uv in
  image_fragment_main mono use_palette image mask palette uv
  = if mono && negb use_palette
    then point_fragment_main false palette
           (vec4_of (vec3_splat (chan_r itex)) (chan_a itex)) m
    else point_fragment_main mono palette itex m.
Proof.
  intros Hi. cbv zeta.
  assert (Hone : forall c : vec3, v3scale c 1 = c).
  { intros [cx cy cz]. unfold v3scale; cbn. now rewrite !Qcmult_1_r. }
  unfold image_fragment_main. cbv zeta.
  unfold image_color_a, image_color_rgb.
  destruct mono, use_palette; cbn [andb negb];
    unfold point_fragment_main, point_color_a, point_color_rgb,
      image_img_color, image_key_color, point_base_color;
    cbn [chan_a chan_r vec4_of vec3_splat rgb xyz v3x v3y v3z v4x v4y v4z v4w];
    fold (chan_a (texture image uv)); rewrite ?Hi, ?Hone; reflexivity.
Qed.

Lemma image_fragment_matches_point_witness :
  image_fragment_main true false (const_sampler (Vec4 (qc 1 2) 0 0 1))
    (const_sampler (Vec4 1 0 0 (qc 1 2))) grey_ramp (Vec2 0 0)
  = point_fragment_main false grey_ramp
      (vec4_of (vec3_splat (chan_r (texture (const_sampler (Vec4 (qc 1 2) 0 0 1)) (Vec2 0 0))))
               (chan_a (texture (const_sampler (Vec4 (qc 1 2) 0 0 1)) (Vec2 0 0))))
      (texture (const_sampler (Vec4 1 0 0 (qc 1 2))) (Vec2 0 0)).
Proof.
  apply (image_fragment_matches_point true false (const_sampler (Vec4 (qc 1 2) 0 0 1))
           (const_sampler (Vec4 1 0 0 (qc 1 2))) grey_ramp (Vec2 0 0)).
  reflexivity.
Defined.

(** With mono on, use_palette off and an opaque texel the two stages do
    differ on the same inputs: the image stage shows the grey of itex.r, the
    point stage the palette colour. *)
Example image_fragment_grey_not_palette :
  image_fragment_main true false (const_sampler (Vec4 1 0 0 1))
    (const_sampler (Vec4 0 0 0 0)) (const_sampler (Vec4 0 0 1 1)) (Vec2 0 0)
  <> point_fragment_main true (const_sampler (Vec4 0 0 1 1))
       (Vec4 1 0 0 1) (Vec4 0 0 0 0).
Proof.
  intros H. apply (f_equal out_rgb) in H. vm_compute in H. discriminate H.
Qed.

(** What the stage reads: with mono off neither use_palette nor the palette
    matters, and with mono on only the red and the alpha of the image texel
    are read. *)
Theorem image_fragment_inputs_read (use_palette use_palette' : bool)
    (image image' mask palette palette' : sampler2D) (uv : vec2) :
  image_fragment_main false use_palette image mask palette uv
  = image_fragment_main false use_palette' image mask palette' uv /\
  (chan_r (texture image uv) = chan_r (texture image' uv) ->
   chan_a (texture image uv) = chan_a (texture image' uv) ->
   image_fragment_main true use_palette image mask palette uv
   = image_fragment_main true use_palette image' mask palette uv).
Proof.
  split; [reflexivity |]. intros Hr Ha.
  unfold image_fragment_main, image_color_a, image_color_rgb, image_img_color,
    image_key_color. cbv zeta.
  now rewrite Hr, Ha.
Qed.

Lemma image_fragment_inputs_read_witness :
  image_fragment_main true false (const_sampler (Vec4 (qc 1 2) 0 1 1))
    (const_sampler (Vec4 1 0 0 (qc 1 2))) grey_ramp (Vec2 0 0)
  = image_fragment_main true false (const_sampler (Vec4 (qc 1 2) 1 0 1))
      (const_sampler (Vec4 1 0 0 (qc 1 2))) grey_ramp (Vec2 0 0).
Proof.
  apply (proj2 (image_fragment_inputs_read false false
                  (const_sampler (Vec4 (qc 1 2) 0 1 1))
                  (const_sampler (Vec4 (qc 1 2) 1 0 1))
                  (const_sampler (Vec4 1 0 0 (qc 1 2))) grey_ramp grey_ramp (Vec2 0 0)));
    reflexivity.
Defined.

(** The image stage's alpha follows the same law as the point stage's: for
    alphas in [0, 1] it stays in [0, 1], and the stage divides by zero
    exactly when the mask texel and the image texel are both fully
    transparent. *)
Theorem image_fragment_alpha_range (mono use_palette : bool)
    (image mask palette : sampler2D) (uv : vec2) :
  in_unit (chan_a (texture mask uv)) -> in_unit (chan_a (texture image uv)) ->
  let out := image_fragment_main mono use_palette image mask palette uv in
  in_unit (out_a out) /\
  (out_rgb out = None
   <-> chan_a (texture mask uv) = 0 /\ chan_a (texture image uv) = 0).
Proof.
  intros Hm Hi. cbv zeta. unfold image_fragment_main. cbv zeta.
  cbn [out_a out_rgb]. unfold image_color_a.
  split; [now apply over_alpha_unit |].
  rewrite <- (over_alpha_zero _ _ Hm Hi).
  unfold v3div. case_decide; split; try done.
Qed.

Lemma image_fragment_alpha_range_witness :
  in_unit (out_a (image_fragment_main false false
                    (const_sampler (Vec4 1 0 0 (qc 1 4)))
                    (const_sampler (Vec4 0 1 0 (qc 1 2))) grey_ramp (Vec2 0 0))).
Proof.
  apply (image_fragment_alpha_range false false
           (const_sampler (Vec4 1 0 0 (qc 1 4)))
           (const_sampler (Vec4 0 1 0 (qc 1 2))) grey_ramp (Vec2 0 0)).
  - split; vm_compute; discriminate.
  - split; vm_compute; discriminate.
Defined.

(** ** The ring fragment stage, continued *)

Lemma Qfloor_unique (x : Q) (z : Z) :
  (inject_Z z <= x)%Q -> (x < inject_Z (z + 1))%Q -> Qfloor x = z.
Proof.
  intros Hlo Hhi.
  pose proof (Qfloor_le x) as H1. pose proof (Qlt_floor x) as H2.
  assert (Qfloor x < z + 1)%Z by (rewrite Zlt_Qlt; eapply Qle_lt_trans; eauto).
  assert (z < Qfloor x + 1)%Z by (rewrite Zlt_Qlt; eapply Qle_lt_trans; eauto).
  lia.
Qed.

Lemma Qfloor_succ (x : Q) : Qfloor (x + 1) = (Qfloor x + 1)%Z.
Proof.
  apply Qfloor_unique.
  - rewrite inject_Z_plus. pose proof (Qfloor_le x). change (inject_Z 1) with 1%Q. lra.
  - rewrite inject_Z_plus. pose proof (Qlt_floor x). change (inject_Z 1) with 1%Q. lra.
Qed.

Lemma Qceiling_succ (x : Q) : Qceiling (x + 1) = (Qceiling x + 1)%Z.
Proof.
  unfold Qceiling.
  assert (E : (- (x + 1) + 1 == - x)%Q) by ring.
  rewrite <- E, Qfloor_succ. lia.
Qed.

Lemma glsl_round_succ (ties_up : bool) (x : Qc) :
  glsl_round ties_up (x + 1) = glsl_round ties_up x + 1.
Proof.
  unfold glsl_round, Qc_floor, Qc_ceiling. destruct ties_up.
  - assert (E : Qfloor (this (x + 1 + qc 1 2)) = (Qfloor (this (x + qc 1 2)) + 1)%Z).
    { rewrite <- Qfloor_succ. apply Qfloor_comp.
      unfold qc, Qcplus, Q2Qc; cbn [this]. rewrite !Qred_correct. ring. }
    now rewrite E, Z2Qc_inj_add, Z2Qc_inj_1.
  - assert (E : Qceiling (this (x + 1 - qc 1 2)) = (Qceiling (this (x - qc 1 2)) + 1)%Z).
    { rewrite <- Qceiling_succ. apply Qceiling_comp.
      unfold qc, Qcminus, Qcplus, Qcopp, Q2Qc; cbn [this]. rewrite !Qred_correct. ring. }
    now rewrite E, Z2Qc_inj_add, Z2Qc_inj_1.
Qed.

Lemma glsl_round_integer (ties_up : bool) (k : Z) :
  glsl_round ties_up (Qc_of_Z k) = Qc_of_Z k.
Proof.
  unfold glsl_round, Qc_floor, Qc_ceiling. destruct ties_up; f_equal.
  - unfold qc, Qcplus, Q2Qc, Qc_of_Z; cbn [this]. rewrite !Qred_correct.
    apply Qfloor_unique; rewrite ?inject_Z_plus; change (inject_Z 1) with 1%Q; lra.
  - unfold qc, Qcminus, Qcplus, Qcopp, Q2Qc, Qc_of_Z; cbn [this]. rewrite !Qred_correct.
    unfold Qceiling.
    assert (Qfloor (- (inject_Z k + - (1 # 2))) = (- k)%Z); [| lia].
    apply Qfloor_unique; rewrite ?inject_Z_plus, ?inject_Z_opp;
      change (inject_Z 1) with 1%Q; lra.
Qed.

Lemma clamp_range (x lo hi : Qc) : lo <= hi -> lo <= clamp x lo hi /\ clamp x lo hi <= hi.
Proof.
  intros H. unfold clamp, Qc_min, Qc_max.
  repeat case_decide; split;
    auto using Qcle_refl, Qclt_le_weak, Qcnot_lt_le.
Qed.

Lemma clamp_le_thickness (t r : Qc) : 0 <= t -> 0 <= r -> clamp (t - r) 0 1 <= t.
Proof.
  intros Ht Hr. unfold clamp, Qc_min, Qc_max.
  assert (Htr : t - r <= t).
  { qc2q. lra. }
  repeat case_decide; eauto using Qcle_trans, Qclt_le_weak.
Qed.

Lemma ring_line_weight_live (ties_up : bool)
    (ring_range ring_thickness radius len : Qc) :
  ~ ring_suppressed ring_range radius ->
  ring_line_weight ties_up ring_range ring_thickness radius len
  = (rangeFromLine ← ring_range_from_line ties_up ring_range radius len;
     Some (clamp (ring_thickness - rangeFromLine) 0 1)).
Proof.
  intros H. unfold ring_suppressed in H. unfold ring_line_weight. cbv zeta.
  rewrite !bool_decide_eq_false_2 by tauto. reflexivity.
Qed.

Lemma ring_range_from_line_nonneg (ties_up : bool) (ring_range radius len r : Qc) :
  ring_range_from_line ties_up ring_range radius len = Some r -> 0 <= r.
Proof.
  unfold ring_range_from_line.
  destruct (ring_signed_distance ties_up ring_range radius) as [sd |]; [| discriminate].
  cbn. destruct (fdiv sd len) as [d |]; [| discriminate]. cbn.
  intros [= <-]. apply Qc_abs_nonneg.
Qed.

Lemma ring_line_weight_bounds_aux (ties_up : bool)
    (ring_range ring_thickness radius len w : Qc) :
  ring_line_weight ties_up ring_range ring_thickness radius len = Some w ->
  0 <= w /\ w <= 1.
Proof.
  intros Hw.
  destruct (decide (ring_suppressed ring_range radius)) as [Hs | Hs].
  - rewrite ring_line_weight_suppressed in Hw by exact Hs. injection Hw as <-. done.
  - rewrite ring_line_weight_live in Hw by exact Hs.
    destruct (ring_range_from_line ties_up ring_range radius len) as [r |] eqn:Hr;
      [| discriminate]. cbn in Hw. injection Hw as <-.
    apply clamp_range; done.
Qed.

(** Whenever the line weight is defined it lies in [0, 1]; it never exceeds
    a non-negative ring_thickness, and with ring_thickness <= 0 no line is
    drawn at all. *)
Theorem ring_line_weight_bounds (ties_up : bool)
    (ring_range ring_thickness radius len w : Qc) :
  ring_line_weight ties_up ring_range ring_thickness radius len = Some w ->
  (0 <= w /\ w <= 1) /\
  (0 <= ring_thickness -> w <= ring_thickness) /\
  (ring_thickness <= 0 -> w = 0).
Proof.
  intros Hw.
  destruct (decide (ring_suppressed ring_range radius)) as [Hs | Hs].
  - rewrite ring_line_weight_suppressed in Hw by exact Hs. injection Hw as <-.
    repeat split; done.
  - rewrite ring_line_weight_live in Hw by exact Hs.
    destruct (ring_range_from_line ties_up ring_range radius len) as [r |] eqn:Hr;
      [| discriminate]. cbn in Hw. injection Hw as <-.
    apply ring_range_from_line_nonneg in Hr.
    split; [apply clamp_range; done |]. split.
    + intros Ht. now apply clamp_le_thickness.
    + intros Ht. apply clamp_nonpos. qc2q. lra.
Qed.

Lemma ring_line_weight_bounds_witness :
  (0 <= qc 1 20 /\ qc 1 20 <= 1) /\
  (0 <= qc 1 10 -> qc 1 20 <= qc 1 10) /\
  (qc 1 10 <= 0 -> qc 1 20 = 0).
Proof.
  apply (ring_line_weight_bounds true (qc 5 1) (qc 1 10) (qc 5 2) (qc 50 1) (qc 1 20)).
  vm_compute. apply f_equal, Qc_is_canon. reflexivity.
Defined.


Lemma ring_line_weight_on_ring_aux (ties_up : bool) (ring_range radius : Qc) (k : Z) :
  ring_range <> 0 -> radius = Qc_of_Z k * ring_range ->
  ring_signed_distance ties_up ring_range radius = Some 0.
Proof.
  intros Hr ->. unfold ring_signed_distance. rewrite fdiv_nonzero by assumption.
  cbn [mbind option_bind].
  replace (Qc_of_Z k * ring_range / ring_range) with (Qc_of_Z k) by (now field).
  rewrite glsl_round_integer. f_equal. ring.
Qed.

(** On every ring, that is at every radius k * ring_range that the override
    leaves alone, the weight is the full clamp(ring_thickness, 0, 1), for
    every non-zero gradient and either tie direction of [round]. *)
Theorem ring_line_weight_on_ring (ties_up : bool)
    (ring_range ring_thickness len : Qc) (k : Z) :
  ring_range <> 0 -> len <> 0 ->
  ~ ring_suppressed ring_range (Qc_of_Z k * ring_range) ->
  ring_line_weight ties_up ring_range ring_thickness (Qc_of_Z k * ring_range) len
  = Some (clamp ring_thickness 0 1).
Proof.
  intros Hr Hl Hs. rewrite ring_line_weight_live by assumption.
  unfold ring_range_from_line.
  rewrite (ring_line_weight_on_ring_aux ties_up ring_range _ k) by done.
  cbn [mbind option_bind]. rewrite fdiv_nonzero by assumption. cbn [mbind option_bind].
  do 2 f_equal.
  replace (0 / len) with (Q2Qc 0) by (now field).
  replace (Qc_abs 0) with (Q2Qc 0) by qc_eq. ring.
Qed.

Lemma ring_line_weight_on_ring_witness :
  ring_line_weight false (qc 5 1) (qc 1 10) (Qc_of_Z 3 * qc 5 1) (qc 1 7)
  = Some (clamp (qc 1 10) 0 1).
Proof.
  apply (ring_line_weight_on_ring false (qc 5 1) (qc 1 10) (qc 1 7) 3).
  - discriminate.
  - discriminate.
  - intros [H | H]; vm_compute in H; discriminate H.
Defined.


(** The pattern repeats every ring_range units: where the override applies
    to neither radius, the weight at radius + ring_range is the weight at
    radius (equally undefined when the gradient is zero). *)
Theorem ring_line_weight_periodic (ties_up : bool)
    (ring_range ring_thickness radius len : Qc) :
  ring_range <> 0 ->
  ~ ring_suppressed ring_range radius ->
  ~ ring_suppressed ring_range (radius + ring_range) ->
  ring_line_weight ties_up ring_range ring_thickness (radius + ring_range) len
  = ring_line_weight ties_up ring_range ring_thickness radius len.
Proof.
  intros Hr Hs Hs'. rewrite !ring_line_weight_live by assumption.
  unfold ring_range_from_line, ring_signed_distance.
  rewrite !fdiv_nonzero by assumption. cbn [mbind option_bind].
  replace ((radius + ring_range) / ring_range) with (radius / ring_range + 1)
    by (now field).
  rewrite glsl_round_succ.
  replace (radius + ring_range - (glsl_round ties_up (radius / ring_range) + 1) * ring_range)
    with (radius - glsl_round ties_up (radius / ring_range) * ring_range) by ring.
  reflexivity.
Qed.

Lemma ring_line_weight_periodic_witness :
  ring_line_weight true (qc 5 1) (qc 1 10) (qc 26 10 + qc 5 1) (qc 1 1)
  = ring_line_weight true (qc 5 1) (qc 1 10) (qc 26 10) (qc 1 1).
Proof.
  apply (ring_line_weight_periodic true (qc 5 1) (qc 1 10) (qc 26 10) (qc 1 1)).
  - discriminate.
  - intros [H | H]; vm_compute in H; discriminate H.
  - intros [H | H]; vm_compute in H; discriminate H.
Defined.


(** Where the override does not apply, the weight is the result of a
    division by zero exactly when ring_range is 0 or the gradient of the
    radius is 0 (a flat neighbourhood); nothing else makes it undefined. *)
Theorem ring_line_weight_undefined (ties_up : bool)
    (ring_range ring_thickness radius len : Qc) :
  ~ ring_suppressed ring_range radius ->
  (ring_line_weight ties_up ring_range ring_thickness radius len = None
   <-> ring_range = 0 \/ len = 0).
Proof.
  intros Hs. rewrite ring_line_weight_live by assumption.
  unfold ring_range_from_line, ring_signed_distance, fdiv.
  destruct (decide (ring_range = 0)) as [Hr | Hr]; cbn [mbind option_bind].
  - split; [auto | reflexivity].
  - destruct (decide (len = 0)) as [Hl | Hl]; cbn [mbind option_bind].
    + split; [auto | reflexivity].
    + split; [discriminate | tauto].
Qed.

Lemma ring_line_weight_undefined_witness :
  ring_line_weight true (qc 5 1) (qc 1 10) (qc 5 1) 0 = None
  <-> qc 5 1 = 0 \/ (0 : Qc) = 0.
Proof.
  apply (ring_line_weight_undefined true (qc 5 1) (qc 1 10) (qc 5 1) 0).
  intros [H | H]; vm_compute in H; discriminate H.
Defined.


(** The colour written by the ring stage is always opaque, and when its rgb
    is defined it is a grey between black and 0.15. *)
Theorem ring_fragment_color_range (length2 : vec2 -> Qc) (ties_up : bool)
    (ring_range ring_thickness : Qc) (ring_xy : vec2) (dFdx_radius dFdy_radius : Qc) :
  let out := ring_fragment_main length2 ties_up ring_range ring_thickness ring_xy
               dFdx_radius dFdy_radius in
  out_a out = 1 /\
  forall v, out_rgb out = Some v ->
    v3y v = v3x v /\ v3z v = v3x v /\ 0 <= v3x v /\ v3x v <= qc 15 100.
Proof.
  cbv zeta. unfold ring_fragment_main. cbv zeta. cbn [out_a out_rgb].
  split; [reflexivity |]. intros v.
  destruct (ring_line_weight _ _ _ _ _) as [w |] eqn:Hw; [| discriminate].
  cbn. intros [= <-]. cbn.
  destruct (ring_line_weight_bounds_aux _ _ _ _ _ _ Hw) as [H0 H1].
  split; [reflexivity |]. split; [reflexivity |]. qc2q. split; nra.
Qed.

Lemma ring_fragment_color_range_witness :
  v3y (Vec3 (qc 3 200) (qc 3 200) (qc 3 200)) = v3x (Vec3 (qc 3 200) (qc 3 200) (qc 3 200)) /\
  v3z (Vec3 (qc 3 200) (qc 3 200) (qc 3 200)) = v3x (Vec3 (qc 3 200) (qc 3 200) (qc 3 200)) /\
  0 <= v3x (Vec3 (qc 3 200) (qc 3 200) (qc 3 200)) /\
  v3x (Vec3 (qc 3 200) (qc 3 200) (qc 3 200)) <= qc 15 100.
Proof.
  apply (proj2 (ring_fragment_color_range axis_length true (qc 5 1) (qc 1 10)
                  (Vec2 (qc 5 1) 0) (qc 1 1) 0)).
  vm_compute. apply f_equal. f_equal; apply Qc_is_canon; reflexivity.
Defined.


(** ** load_texture, continued *)

Local Open Scope Z_scope.


(** Uploads to two different handles do not disturb each other: both
    orders give the same texture table, the first texture is as its own
    upload left it, and only the binding tells the orders apart (the handle
    of the last call stays bound; the earlier binding is not restored). *)
Theorem load_texture_independent (a b : list Qc) (wa ha wb hb : N) (ida idb : N)
    (ifa fa ta ifb fb tb : Z) (w : world) :
  ida <> idb ->
  let wab := (load_texture b wb hb idb ifb fb tb
                (load_texture a wa ha ida ifa fa ta w).2).2 in
  let wba := (load_texture a wa ha ida ifa fa ta
                (load_texture b wb hb idb ifb fb tb w).2).2 in
  gl_textures wab = gl_textures wba /\
  gl_textures wab !! ida = gl_textures (load_texture a wa ha ida ifa fa ta w).2 !! ida /\
  gl_bound_texture_2d wab = idb /\ gl_bound_texture_2d wba = ida.
Proof.
  intros Hne. cbv zeta. rewrite !load_texture_run.
  cbn [snd gl_shaders gl_programs gl_textures gl_bound_texture_2d stdout].
  unfold levels_of; cbn [gl_textures].
  rewrite !lookup_insert_ne by done.
  repeat split.
  apply insert_insert_ne. congruence.
Qed.

Lemma load_texture_independent_witness :
  gl_textures (load_texture [1%Qc] 1 1 2 GL_RED GL_RED GL_FLOAT
                 (load_texture [0%Qc] 1 1 1 GL_RED GL_RED GL_FLOAT empty_world).2).2
  = gl_textures (load_texture [0%Qc] 1 1 1 GL_RED GL_RED GL_FLOAT
                   (load_texture [1%Qc] 1 1 2 GL_RED GL_RED GL_FLOAT empty_world).2).2.
Proof.
  apply (load_texture_independent [0%Qc] [1%Qc] 1 1 1 1 1%N 2%N
           GL_RED GL_RED GL_FLOAT GL_RED GL_RED GL_FLOAT empty_world).
  discriminate.
Defined.


(** Only mip level 0 is written: images a texture already had at other
    levels stay in the object (base and max level 0 keep them out of
    sampling), and a new texture has no other level. *)
Theorem load_texture_keeps_other_levels (texture : list Qc) (width height : N)
    (texture_id : N) (internal_format format type : Z) (w : world) (level : Z) :
  level <> 0 ->
  levels_of (load_texture texture width height texture_id
               internal_format format type w).2 texture_id !! level
  = levels_of w texture_id !! level.
Proof.
  intros Hl. rewrite load_texture_run. unfold levels_of at 1. cbn [snd gl_textures].
  rewrite lookup_insert_eq. cbn [tx_levels]. now rewrite lookup_insert_ne.
Qed.

Lemma load_texture_keeps_other_levels_witness :
  levels_of (load_texture [0%Qc] 1 1 7 GL_RED GL_RED GL_FLOAT empty_world).2 7 !! 1
  = levels_of empty_world 7 !! 1.
Proof.
  apply (load_texture_keeps_other_levels [0%Qc] 1 1 7 GL_RED GL_RED GL_FLOAT
           empty_world 1).
  discriminate.
Defined.


(** ** load_shaders, continued *)

Lemma printed_nil_iff (logs : list string) :
  printed logs = [] <-> Forall (fun l => l = EmptyString) logs.
Proof.
  unfold printed. induction logs as [| l logs IH]; [split; constructor |].
  destruct (decide (l = EmptyString)) as [-> | Hl].
  - rewrite filter_cons_False by (intros H; now apply H).
    rewrite IH. split; [now constructor | now inversion 1].
  - rewrite filter_cons_True by assumption. split; [discriminate |].
    inversion 1; contradiction.
Qed.

Lemma load_shaders_wf (compile : shader_type -> string -> bool * string)
    (link : list shader_obj -> bool * string) (indeterminate : Z)
    (vs fs : string) (w : world) :
  gl_wf w -> gl_wf (load_shaders compile link indeterminate vs fs w).2.
Proof.
  intros Hwf.
  destruct (load_shaders_run compile link indeterminate vs fs w Hwf)
    as (vid & fid & pid & _ & ->).
  intros q p sid Hq Hin. cbn [snd gl_programs gl_shaders] in *.
  destruct (decide (pid = q)) as [-> | Hne].
  - rewrite lookup_insert_eq in Hq. injection Hq as <-.
    cbn in Hin. now apply not_elem_of_nil in Hin.
  - rewrite lookup_insert_ne in Hq by assumption. eapply Hwf; eauto.
Qed.

Lemma created_program_fresh (w : world) :
  gl_programs w !! (created_names w).2 = None.
Proof.
  unfold created_names. cbv zeta. cbn [snd].
  match goal with |- _ !! gen_name ?w2 = None =>
    destruct (gen_name_fresh w2) as (_ & H & _) end.
  exact H.
Qed.

(** Printing follows the information logs, not the statuses: a call prints
    nothing exactly when the two compile logs and the link log are all
    empty, so a failure with an empty log passes in silence and a non-empty
    log of a successful stage is printed. *)
Theorem load_shaders_quiet_iff (compile : shader_type -> string -> bool * string)
    (link : list shader_obj -> bool * string) (indeterminate : Z)
    (vs fs : string) (w : world) :
  gl_wf w ->
  let vsh := compiled_shader compile GL_VERTEX_SHADER vs in
  let fsh := compiled_shader compile GL_FRAGMENT_SHADER fs in
  stdout (load_shaders compile link indeterminate vs fs w).2 = stdout w
  <-> (compile GL_VERTEX_SHADER vs).2 = EmptyString /\
      (compile GL_FRAGMENT_SHADER fs).2 = EmptyString /\
      (link [vsh; fsh]).2 = EmptyString.
Proof.
  intros Hwf. cbv zeta.
  destruct (load_shaders_run compile link indeterminate vs fs w Hwf)
    as (vid & fid & pid & _ & ->).
  cbn [snd stdout sh_info_log compiled_shader].
  rewrite <- (app_nil_r (stdout w)) at 2.
  split.
  - intros H%app_inv_head. apply printed_nil_iff in H.
    inversion H as [| ? ? H1 H']; subst. inversion H' as [| ? ? H2 H'']; subst.
    inversion H'' as [| ? ? H3 _]; subst. auto.
  - intros (H1 & H2 & H3). f_equal. apply printed_nil_iff.
    repeat constructor; assumption.
Qed.

Lemma load_shaders_quiet_iff_witness :
  stdout (load_shaders strict_compile strict_link 0
            "void main() {}" "void main() {}" empty_world).2 = stdout empty_world
  <-> (strict_compile GL_VERTEX_SHADER "void main() {}").2 = EmptyString /\
      (strict_compile GL_FRAGMENT_SHADER "void main() {}").2 = EmptyString /\
      (strict_link [compiled_shader strict_compile GL_VERTEX_SHADER "void main() {}";
                    compiled_shader strict_compile GL_FRAGMENT_SHADER "void main() {}"]).2
      = EmptyString.
Proof.
  apply (load_shaders_quiet_iff strict_compile strict_link 0
           "void main() {}" "void main() {}" empty_world gl_wf_empty).
Defined.





(** Two calls in a row: the second returns a handle different from the
    first, the first program object is left as it was, both programs exist
    afterwards, and still no shader object is left over. *)
Theorem load_shaders_twice
    (compile compile' : shader_type -> string -> bool * string)
    (link link' : list shader_obj -> bool * string) (indeterminate indeterminate' : Z)
    (vs fs vs' fs' : string) (w : world) :
  gl_wf w ->
  let r1 := load_shaders compile link indeterminate vs fs w in
  let r2 := load_shaders compile' link' indeterminate' vs' fs' r1.2 in
  r2.1 <> r1.1 /\
  is_Some (gl_programs r1.2 !! r1.1) /\
  gl_programs r2.2 !! r1.1 = gl_programs r1.2 !! r1.1 /\
  is_Some (gl_programs r2.2 !! r2.1) /\
  gl_shaders r2.2 = gl_shaders w.
Proof.
  intros Hwf. cbv zeta.
  pose proof (load_shaders_wf compile link indeterminate vs fs w Hwf) as Hwf1.
  destruct (load_shaders_run compile' link' indeterminate' vs' fs' _ Hwf1)
    as (vid' & fid' & pid' & Hn' & ->).
  pose proof (created_program_fresh (load_shaders compile link indeterminate vs fs w).2)
    as Hfresh.
  rewrite Hn' in Hfresh. cbn [snd] in Hfresh.
  destruct (load_shaders_run compile link indeterminate vs fs w Hwf)
    as (vid & fid & pid & Hn & Hrun).
  rewrite Hrun in *. cbn [fst snd gl_programs gl_shaders] in *.
  assert (Hne : pid' <> pid).
  { intros ->. rewrite lookup_insert_eq in Hfresh. discriminate Hfresh. }
  repeat split.
  - assumption.
  - rewrite lookup_insert_eq. eauto.
  - now rewrite (lookup_insert_ne _ pid' pid).
  - rewrite lookup_insert_eq. eauto.
Qed.

Lemma load_shaders_twice_witness :
  (load_shaders strict_compile strict_link 0 EmptyString "void main() {}"
     (load_shaders strict_compile strict_link 0 "void main() {}" "void main() {}"
        empty_world).2).1
  <> (load_shaders strict_compile strict_link 0 "void main() {}" "void main() {}"
        empty_world).1.
Proof.
  apply (load_shaders_twice strict_compile strict_compile strict_link strict_link
           0 0 "void main() {}" "void main() {}" EmptyString "void main() {}"
           empty_world gl_wf_empty).
Defined.

